(** * Odometry estimator of mm-firmware (src/odometry.cc)

    A shallow embedding of [odometry::Wheel] and of
    [odometry::Odometry::OdometryImpl], followed by the properties of the
    wheel differentiation with encoder wraparound and of the pose
    integration step.

    Numeric model.
    - [uint16_t] and [uint32_t] values are integers of [Z]; the one place
      where the source narrows an [int] back to [uint16_t]
      ([current = resolution_ - current]) writes the reduction modulo 2^16
      out.  The tick delta is an [int]: its operands are promoted
      [uint16_t] values, so it stays within (-2^17, 2^17) and never wraps.
    - [float] is IEEE-754 binary32 with round-to-nearest-even, taken from
      the Standard Library's executable specification [SpecFloat]
      (precision 24, exponent bound 128).  Every C++ operator rounds on its
      own (no fused multiply-add).
    - [std::cos] and [std::sin] come from the C library; the pose
      integration is parameterised by them.

    The frame handling and the unit conversions of the AS5050A encoder
    driver (src/driver/hardware/encoder.cpp) follow in [Encoder]; the SPI
    transfer itself is an input of its [update].  [Motor] holds what
    [driver::motor::speed] (src/driver/motor.cpp) computes: the direction
    and the tick count it passes to the motor library. *)

From Stdlib Require Import ZArith Bool List Lia.
From Stdlib Require Import QArith.
From Stdlib Require Import SpecFloat.
Import ListNotations.

Local Open Scope Z_scope.

(** ** binary32 arithmetic *)

Module F32.

Definition prec : Z := 24.
Definition emax : Z := 128.

Definition float := spec_float.

Definition add : float -> float -> float := SFadd prec emax.
Definition sub : float -> float -> float := SFsub prec emax.
Definition mul : float -> float -> float := SFmul prec emax.
Definition div : float -> float -> float := SFdiv prec emax.
Definition opp : float -> float := SFopp.
Definition abs : float -> float := SFabs.
Definition leb : float -> float -> bool := SFleb.
Definition eqb : float -> float -> bool := SFeqb.

(** [static_cast<float>] of an integer: the nearest binary32 value,
    ties to even; zero converts to +0. *)
Definition of_Z (z : Z) : float := binary_normalize prec emax z 0 false.

Definition zero : float := S754_zero false.
Definition two : float := Eval cbv in of_Z 2.
Definition thousand : float := Eval cbv in of_Z 1000.
Definition million : float := Eval cbv in of_Z 1000000.

(** [std::numbers::pi_v<float>], bit pattern 0x40490FDB. *)
Definition pi : float := S754_finite false 13176795 (-22).

(** [std::numeric_limits<float>::epsilon()], 2^-23. *)
Definition epsilon : float := S754_finite false 8388608 (-46).

(** The float is a zero, a finite number or an infinity whose sign bit
    is [s]; in particular it is not a NaN. *)
Definition signed (s : bool) (x : float) : Prop :=
  match x with
  | S754_zero s' | S754_infinity s' | S754_finite s' _ _ => s' = s
  | S754_nan => False
  end.

(** The float is a non-zero finite number with sign bit [s]. *)
Definition finite (s : bool) (x : float) : Prop :=
  match x with
  | S754_finite s' _ _ => s' = s
  | _ => False
  end.

Definition is_finite_pos (x : float) : bool :=
  match x with
  | S754_finite false _ _ => true
  | _ => false
  end.

(** The number of low bits [shr_fexp] drops from a mantissa. *)
Definition dropped (m e : Z) : Z :=
  Z.max 0 (fexp prec emax (Zdigits2 m + e) - e).

(** [P] holds of the [n] integers from [z] on. *)
Fixpoint all_from (P : Z -> bool) (n : nat) (z : Z) : bool :=
  match n with
  | O => true
  | S n' => P z && all_from P n' (z + 1)
  end.


(** A zero or a finite number: neither an infinity nor a NaN. *)
Definition is_number (x : float) : bool :=
  match x with
  | S754_zero _ | S754_finite _ _ _ => true
  | _ => false
  end.

(** The rational a number stands for, [(-1)^s * m * 2^e]; 0 for the
    infinities and NaN, which [is_number] excludes. *)
Definition to_Q (x : float) : Q :=
  match x with
  | S754_finite s m e =>
      let v := (inject_Z (Z.pos m) * Qpower 2 e)%Q in
      if s then Qopp v else v
  | _ => 0%Q
  end.

End F32.

(** ** odometry::Wheel *)

Module Wheel.

Record t := mk {
  tire_diameter_ : F32.float;
  invert_ : bool;
  reset_ : bool;
  resolution_ : Z;
  resolution_half_ : Z;
  angle_per_resolution_ : F32.float;
  previous_ : Z;
  angular_acceleration_ : F32.float;
  angular_velocity_ : F32.float;
  velocity_ : F32.float
}.

(** [(2.0f * pi) / static_cast<float>(resolution)] *)
Definition angle_per_tick (resolution : Z) : F32.float :=
  F32.div (F32.mul F32.two F32.pi) (F32.of_Z resolution).

(** The constructor: the member initialisers of lines 87-93 and the
    default member initialisers of lines 35-56. *)
Definition make (resolution : Z) (tire_diameter : F32.float) (invert : bool) : t :=
  {| tire_diameter_ := tire_diameter;
     invert_ := invert;
     reset_ := true;
     resolution_ := resolution;
     resolution_half_ := resolution / 2;
     angle_per_resolution_ := angle_per_tick resolution;
     previous_ := 0;
     angular_acceleration_ := F32.zero;
     angular_velocity_ := F32.zero;
     velocity_ := F32.zero |}.

(** Lines 67-74 of [calculate_angular_velocity]: the change of the
    reading over one period, with the wraparound correction. *)
Definition tick_delta (w : t) (current : Z) : Z :=
  let delta := current - previous_ w in
  if Z.abs delta >=? resolution_half_ w then
    if previous_ w >=? resolution_half_ w then delta + resolution_ w
    else delta - resolution_ w
  else delta.

(** Lines 75-78 of [calculate_angular_velocity]: ticks to radians, then
    to radians per second. *)
Definition ticks_to_velocity (w : t) (delta delta_us : Z) : F32.float :=
  let angle := F32.mul (F32.of_Z delta) (angle_per_resolution_ w) in
  F32.mul (F32.div angle (F32.of_Z delta_us)) F32.million.

Definition calculate_angular_velocity (w : t) (current delta_us : Z) : F32.float :=
  ticks_to_velocity w (tick_delta w current) delta_us.

(** The reading after the polarity correction of lines 103-105; the
    difference is an [int] stored back into a [uint16_t]. *)
Definition polarity (w : t) (current : Z) : Z :=
  if invert_ w then (resolution_ w - current) mod 65536 else current.

Definition update (w : t) (current delta_us : Z) : t :=
  let current := polarity w current in
  let seeded :=
    if reset_ w
    then mk (tire_diameter_ w) (invert_ w) false (resolution_ w)
            (resolution_half_ w) (angle_per_resolution_ w) current
            (angular_acceleration_ w) (angular_velocity_ w) (velocity_ w)
    else w in
  let angular_velocity := calculate_angular_velocity seeded current delta_us in
  {| tire_diameter_ := tire_diameter_ seeded;
     invert_ := invert_ seeded;
     reset_ := reset_ seeded;
     resolution_ := resolution_ seeded;
     resolution_half_ := resolution_half_ seeded;
     angle_per_resolution_ := angle_per_resolution_ seeded;
     previous_ := current;
     angular_acceleration_ :=
       F32.mul (F32.div (F32.sub angular_velocity (angular_acceleration_ seeded))
                        (F32.of_Z delta_us))
               F32.million;
     angular_velocity_ := angular_velocity;
     velocity_ := F32.mul angular_velocity (F32.div (tire_diameter_ seeded) F32.two) |}.

Definition reset (w : t) : t :=
  {| tire_diameter_ := tire_diameter_ w;
     invert_ := invert_ w;
     reset_ := true;
     resolution_ := resolution_ w;
     resolution_half_ := resolution_half_ w;
     angle_per_resolution_ := angle_per_resolution_ w;
     previous_ := previous_ w;
     angular_acceleration_ := F32.zero;
     angular_velocity_ := F32.zero;
     velocity_ := F32.zero |}.

(** What the constructor establishes and neither [update] nor [reset]
    changes: a 16-bit resolution with its derived constants. *)
Definition constructed (w : t) : Prop :=
  0 <= resolution_ w < 65536 /\
  resolution_half_ w = resolution_ w / 2 /\
  angle_per_resolution_ w = angle_per_tick (resolution_ w).

(** The angular velocities reported after each update of a run. *)
Fixpoint trace (w : t) (samples : list (Z * Z)) : list F32.float :=
  match samples with
  | [] => []
  | (current, delta_us) :: rest =>
      let w' := update w current delta_us in
      angular_velocity_ w' :: trace w' rest
  end.

(** Two angular velocities of equal magnitude and opposite sign: the
    absolute values coincide and the second compares equal to the
    negation of the first (which no NaN does). *)
Definition mirrored (va vb : F32.float) : Prop :=
  F32.abs va = F32.abs vb /\ F32.eqb vb (F32.opp va) = true.

(** A step from raw reading [p] to raw reading [c] on which the
    wraparound correction fires although both [p] and its mirror image
    [resolution - p] count as upper-half readings. *)
Definition tie_step (resolution p c : Z) : bool :=
  (Z.abs (c - p) >=? resolution / 2)
  && (p >=? resolution / 2) && (resolution - p >=? resolution / 2).

Fixpoint no_tie (resolution p : Z) (readings : list Z) : bool :=
  match readings with
  | [] => true
  | c :: rest => negb (tie_step resolution p c) && no_tie resolution c rest
  end.

(** No step of the run, from the seeding reading on, is a [tie_step]. *)
Definition tie_free (resolution : Z) (readings : list Z) : bool :=
  match readings with
  | [] => true
  | r0 :: rest => no_tie resolution r0 rest
  end.

(** A raw reading below the resolution with a positive 32-bit period. *)
Definition sample_ok (resolution : Z) (sample : Z * Z) : Prop :=
  0 <= fst sample < resolution /\ 0 < snd sample < 2 ^ 32.

(** What relates a wheel without inversion and its inverted twin during
    a common run: the same resolution, the same state, and stored
    readings that are mirror images of each other. *)
Definition paired (R : Z) (wa wb : t) : Prop :=
  constructed wa /\ constructed wb /\
  resolution_ wa = R /\ resolution_ wb = R /\
  invert_ wa = false /\ invert_ wb = true /\
  reset_ wb = reset_ wa /\
  (reset_ wa = false ->
   0 <= previous_ wa < R /\ previous_ wb = R - previous_ wa).

(** A wheel with no inversion and resolution 1024 in the RUNNING state,
    its stored reading being the seeding sample. *)
Definition running_1024 (seed : Z) : t :=
  update (make 1024 (F32.of_Z 30) false) seed 1000.


(** A call of one of the two public mutators. *)
Inductive call := Update (raw delta_us : Z) | Reset.

Definition step (w : t) (c : call) : t :=
  match c with
  | Update raw delta_us => update w raw delta_us
  | Reset => reset w
  end.

(** The wheel after a series of calls. *)
Definition calls (w : t) (cs : list call) : t := fold_left step cs w.

End Wheel.

(** ** odometry::Odometry::OdometryImpl *)

Module Odometry.

Record WheelsPair := { left : F32.float; right : F32.float }.

Record t := mk {
  wheel_track_width_ : F32.float;
  left_ : Wheel.t;
  right_ : Wheel.t;
  wheel_ang_accel_ : WheelsPair;
  wheel_ang_vel_ : WheelsPair;
  wheel_vel_ : WheelsPair;
  velocity_ : F32.float;
  angular_velocity_ : F32.float;
  angle_ : F32.float;
  x_ : F32.float;
  y_ : F32.float
}.

(** The constructor: the left encoder is read as it is, the right one
    inverted; the snapshots and the pose start at +0. *)
Definition make (wheel_track_width tire_diameter : F32.float)
    (resolution_left resolution_right : Z) : t :=
  {| wheel_track_width_ := wheel_track_width;
     left_ := Wheel.make resolution_left tire_diameter false;
     right_ := Wheel.make resolution_right tire_diameter true;
     wheel_ang_accel_ := {| left := F32.zero; right := F32.zero |};
     wheel_ang_vel_ := {| left := F32.zero; right := F32.zero |};
     wheel_vel_ := {| left := F32.zero; right := F32.zero |};
     velocity_ := F32.zero;
     angular_velocity_ := F32.zero;
     angle_ := F32.zero;
     x_ := F32.zero;
     y_ := F32.zero |}.

Definition reset (st : t) : t :=
  {| wheel_track_width_ := wheel_track_width_ st;
     left_ := Wheel.reset (left_ st);
     right_ := Wheel.reset (right_ st);
     wheel_ang_accel_ := wheel_ang_accel_ st;
     wheel_ang_vel_ := wheel_ang_vel_ st;
     wheel_vel_ := wheel_vel_ st;
     velocity_ := velocity_ st;
     angular_velocity_ := angular_velocity_ st;
     angle_ := F32.zero;
     x_ := F32.zero;
     y_ := F32.zero |}.

(** The test of line 211 on the two wheel velocities. *)
Definition straight (vl vr : F32.float) : bool :=
  F32.leb (F32.abs (F32.sub vl vr)) F32.epsilon.

Section Update.

(** [std::cos] and [std::sin] on [float]. *)
Variables cosf sinf : F32.float -> F32.float.

(** [update]; [left_raw] and [right_raw] are what
    [dri_.encoder_left->raw()] and [dri_.encoder_right->raw()] return
    in this call. *)
Definition update (st : t) (left_raw right_raw delta_us : Z) : t :=
  let left' := Wheel.update (left_ st) left_raw delta_us in
  let right' := Wheel.update (right_ st) right_raw delta_us in
  let vl := Wheel.velocity_ left' in
  let vr := Wheel.velocity_ right' in
  let velocity := F32.div (F32.add vl vr) F32.two in
  let angular_velocity := F32.div (F32.sub vl vr) (wheel_track_width_ st) in
  let angle := F32.add (angle_ st) (F32.div angular_velocity F32.thousand) in
  let xy :=
    if straight vl vr then
      let a := F32.div (F32.mul velocity (F32.of_Z delta_us)) F32.million in
      (F32.add (x_ st) (F32.mul a (cosf angle)),
       F32.add (y_ st) (F32.mul a (sinf angle)))
    else
      let delta := F32.div (F32.sub angle (angle_ st)) F32.two in
      let a := F32.mul (F32.div (F32.mul F32.two velocity) angular_velocity)
                       (sinf delta) in
      let b := F32.add angle delta in
      (F32.add (x_ st) (F32.mul a (cosf b)),
       F32.add (y_ st) (F32.mul a (sinf b))) in
  {| wheel_track_width_ := wheel_track_width_ st;
     left_ := left';
     right_ := right';
     wheel_ang_accel_ := {| left := Wheel.angular_acceleration_ left';
                            right := Wheel.angular_acceleration_ right' |};
     wheel_ang_vel_ := {| left := Wheel.angular_velocity_ left';
                          right := Wheel.angular_velocity_ right' |};
     wheel_vel_ := {| left := vl; right := vr |};
     velocity_ := velocity;
     angular_velocity_ := angular_velocity;
     angle_ := angle;
     x_ := fst xy;
     y_ := snd xy |}.

End Update.

(** Stand-ins for [std::sin] and [std::cos] on arguments below 2^-12 in
    magnitude, where the correctly rounded binary32 sine of [x] is [x]
    itself and the cosine is 1; used only to run [update] on concrete
    inputs whose headings are that small. *)
Definition small_angle_sin (x : F32.float) : F32.float := x.
Definition small_angle_cos (_ : F32.float) : F32.float :=
  S754_finite false 8388608 (-23).


(** A pose estimator with two resolution-1024 encoders, a track width of
    1 mm and a tire diameter of 2^-26 mm, after its seeding update. *)
Definition seeded_tiny : t :=
  update small_angle_cos small_angle_sin
         (make (F32.of_Z 1) (S754_finite false 8388608 (-49)) 1024 1024)
         0 0 1000.


(** A call of one of the two public mutators; an update carries the raw
    readings the two encoders return during it. *)
Inductive call := Update (left_raw right_raw delta_us : Z) | Reset.

(** What a call of the pose estimator asks of each wheel. *)
Definition left_call (c : call) : Wheel.call :=
  match c with
  | Update left_raw _ delta_us => Wheel.Update left_raw delta_us
  | Reset => Wheel.Reset
  end.

Definition right_call (c : call) : Wheel.call :=
  match c with
  | Update _ right_raw delta_us => Wheel.Update right_raw delta_us
  | Reset => Wheel.Reset
  end.

Section Calls.

Variables cosf sinf : F32.float -> F32.float.

Definition step (st : t) (c : call) : t :=
  match c with
  | Update left_raw right_raw delta_us =>
      update cosf sinf st left_raw right_raw delta_us
  | Reset => reset st
  end.

(** The pose estimator after a series of calls. *)
Definition calls (st : t) (cs : list call) : t := fold_left step cs st.

End Calls.

(** The wheel pair as the constructor makes it (one resolution, one tire
    diameter, the right wheel inverted), both wheels RUNNING on stored
    readings that are the polarity-corrected raw readings [pl] and [pr]. *)
Definition pair_running (st : t) (pl pr : Z) : Prop :=
  Wheel.constructed (left_ st) /\ Wheel.constructed (right_ st) /\
  Wheel.resolution_ (right_ st) = Wheel.resolution_ (left_ st) /\
  Wheel.tire_diameter_ (right_ st) = Wheel.tire_diameter_ (left_ st) /\
  Wheel.invert_ (left_ st) = false /\ Wheel.invert_ (right_ st) = true /\
  Wheel.reset_ (left_ st) = false /\ Wheel.reset_ (right_ st) = false /\
  0 <= pl < Wheel.resolution_ (left_ st) /\
  0 <= pr < Wheel.resolution_ (left_ st) /\
  Wheel.previous_ (left_ st) = Wheel.polarity (left_ st) pl /\
  Wheel.previous_ (right_ st) = Wheel.polarity (right_ st) pr.

(** A pose estimator with two resolution-1024 encoders, a track width of
    100 mm and a tire diameter of 30 mm, after its seeding update on the
    raw readings 0 and 0. *)
Definition seeded_pair : t :=
  update small_angle_cos small_angle_sin
         (make (F32.of_Z 100) (F32.of_Z 30) 1024 1024) 0 0 1000.

End Odometry.

(** ** driver::hardware::Encoder::AS5050AImpl (src/driver/hardware/encoder.cpp) *)

Module Encoder.

(** [RESOLUTION], 10 bit. *)
Definition RESOLUTION : Z := 1024.

Definition REG_MASTER_RESET : Z := 0x33A5.
Definition REG_ANGULAR_DATA : Z := 0x3FFF.

(** The exclusive or of the [n] low bits of [x]. *)
Fixpoint parity_bits (n : nat) (x : Z) : bool :=
  match n with
  | O => false
  | S n' => xorb (Z.odd x) (parity_bits n' (Z.div2 x))
  end.

(** [__builtin_parity] on a 32-bit [unsigned int]: 1 when the number of
    set bits is odd, 0 otherwise. *)
Definition builtin_parity (x : Z) : Z :=
  if parity_bits 32 x then 1 else 0.

(** [command_frame]; the shifted register is stored back into the
    [uint16_t] parameter and the result returned as [uint16_t]. *)
Definition command_frame (reg : Z) (is_reading : bool) : Z :=
  let reg :=
    (Z.lor (Z.shiftl reg 1) (if is_reading then 0x8000 else 0x0000)) mod 65536 in
  (Z.lor reg (builtin_parity reg)) mod 65536.

Definition verify_frame (res : Z) : bool :=
  let parity_ok := Z.land res 0x0001 =? builtin_parity (Z.shiftr res 1) in
  let command_ok := negb (Z.land res 0x0002 =? 0x0002) in
  parity_ok && command_ok.

(** The two bytes a frame is sent as: [frame >> 8] and [frame & 0xFF],
    each stored into a [uint8_t]. *)
Definition tx_bytes (frame : Z) : Z * Z :=
  ((Z.shiftr frame 8) mod 256, Z.land frame 0xFF).

(** [rx_buffer_[0] << 8 | rx_buffer_[1]] as [uint16_t]. *)
Definition rx_frame (rx0 rx1 : Z) : Z :=
  (Z.lor (Z.shiftl rx0 8) rx1) mod 65536.

(** [update]: [ret] is what [spi_.transmit] returns and [rx0], [rx1] the
    two bytes it leaves in [rx_buffer_]; the state is [angle_]. *)
Definition update (angle_ : Z) (ret : bool) (rx0 rx1 : Z) : Z * bool :=
  let res := rx_frame rx0 rx1 in
  let angle_ :=
    if verify_frame res then Z.land (Z.shiftr res 2) 0x3FF else angle_ in
  (angle_, ret).

(** [angle_] after a series of transfers, from the constructor's 0 or any
    other start. *)
Fixpoint run (angle_ : Z) (transfers : list (bool * Z * Z)) : Z :=
  match transfers with
  | [] => angle_
  | (ret, rx0, rx1) :: rest => run (fst (update angle_ ret rx0 rx1)) rest
  end.

(** [RESOLUTION_PER_RADIAN] and [RESOLUTION_PER_DEGREE], evaluated in
    [float]. *)
Definition RESOLUTION_PER_RADIAN : F32.float :=
  F32.div (F32.mul F32.two F32.pi) (F32.of_Z RESOLUTION).
Definition RESOLUTION_PER_DEGREE : F32.float :=
  F32.div (F32.of_Z 360) (F32.of_Z RESOLUTION).

Definition radian (angle_ : Z) : F32.float :=
  F32.mul (F32.of_Z angle_) RESOLUTION_PER_RADIAN.

Definition degree (angle_ : Z) : F32.float :=
  F32.mul (F32.of_Z angle_) RESOLUTION_PER_DEGREE.

End Encoder.

(** ** driver::motor::speed (src/driver/motor.cpp) *)

Module Motor.

Definition BDC_MCPWM_TIMER_RESOLUTION_HZ : Z := 80000000.
Definition BDC_MCPWM_FREQ_HZ : Z := 100000.
Definition BDC_MCPWM_DUTY_TICK_MAX : Z :=
  BDC_MCPWM_TIMER_RESOLUTION_HZ / BDC_MCPWM_FREQ_HZ.

(** The enumeration of motor.h, which is not among the sources; the
    table [bdc_direction] it indexes lists [bdc_motor_forward] first. *)
Inductive direction := FORWARD | REVERSE.

(** The conversion [(uint32_t)] of a [float]: the value truncated toward
    zero when that lies in the range of [uint32_t]; [None] where C++
    leaves the conversion undefined (a truncated value outside the range,
    an infinity, a NaN). *)
Definition float_to_uint32 (x : F32.float) : option Z :=
  match x with
  | S754_zero _ => Some 0
  | S754_finite s m e =>
      let magnitude := Z.shiftl (Z.pos m) e in
      if s then (if magnitude =? 0 then Some 0 else None)
      else if magnitude <? 2 ^ 32 then Some magnitude else None
  | _ => None
  end.

(** [speed], for either motor: the direction whose function it calls and
    the tick count it hands to [bdc_motor_set_speed]. *)
Definition speed (duty : F32.float) : direction * option Z :=
  let dir := if SFltb duty F32.zero then REVERSE else FORWARD in
  (dir, float_to_uint32 (F32.mul (F32.of_Z BDC_MCPWM_DUTY_TICK_MAX) duty)).

End Motor.

(** * Properties *)

(** ** Rounding to binary32 *)

Module F32_facts.

Import F32.

Lemma digits2_pos_size (p : positive) : digits2_pos p = Pos.size p.
Proof. induction p; simpl; congruence. Qed.

Lemma Zdigits2_log2 (m : Z) : 0 < m -> Zdigits2 m = Z.log2 m + 1.
Proof.
  destruct m as [|p|p]; try lia. intros _. simpl.
  rewrite digits2_pos_size. destruct p; simpl; lia.
Qed.

Lemma fexp_eq (e : Z) : fexp prec emax e = Z.max (e - 24) (-149).
Proof. reflexivity. Qed.

Lemma shr_1_m (mrs : shr_record) :
  0 <= shr_m mrs -> shr_m (shr_1 mrs) = Z.shiftr (shr_m mrs) 1.
Proof.
  destruct mrs as [m r s]. simpl. intros Hm.
  destruct m as [|[p|p|]|p]; try reflexivity. lia.
Qed.

Lemma iter_shr_1_m (p : positive) :
  forall mrs, 0 <= shr_m mrs ->
  shr_m (iter_pos shr_1 p mrs) = Z.shiftr (shr_m mrs) (Z.pos p).
Proof.
  induction p as [p IH|p IH|]; intros mrs Hm; simpl.
  - assert (H1 : 0 <= shr_m (shr_1 mrs))
      by (rewrite shr_1_m by assumption; apply Z.shiftr_nonneg; assumption).
    assert (H2 : 0 <= shr_m (iter_pos shr_1 p (shr_1 mrs)))
      by (rewrite IH by assumption; apply Z.shiftr_nonneg; assumption).
    rewrite IH, IH, shr_1_m by assumption.
    rewrite !Z.shiftr_shiftr by lia. f_equal. lia.
  - assert (H2 : 0 <= shr_m (iter_pos shr_1 p mrs))
      by (rewrite IH by assumption; apply Z.shiftr_nonneg; assumption).
    rewrite IH, IH by assumption.
    rewrite Z.shiftr_shiftr by lia. f_equal. lia.
  - apply shr_1_m; assumption.
Qed.

Lemma shr_record_of_loc_m (m : Z) (l : location) :
  shr_m (shr_record_of_loc m l) = m.
Proof. destruct l as [|[| |]]; reflexivity. Qed.

Lemma shr_fexp_spec (m e : Z) (l : location) :
  0 <= m ->
  shr_m (fst (shr_fexp prec emax m e l)) = Z.shiftr m (dropped m e) /\
  snd (shr_fexp prec emax m e l) = e + dropped m e.
Proof.
  intros Hm. unfold shr_fexp, shr, dropped.
  destruct (fexp prec emax (Zdigits2 m + e) - e) as [|p|p]; simpl.
  - rewrite shr_record_of_loc_m. split; [reflexivity | lia].
  - rewrite iter_shr_1_m by (rewrite shr_record_of_loc_m; assumption).
    rewrite shr_record_of_loc_m.
    replace (Z.max 0 (Z.pos p)) with (Z.pos p) by lia. split; reflexivity.
  - rewrite shr_record_of_loc_m. split; [reflexivity | lia].
Qed.

Lemma round_nearest_even_bounds (m : Z) (l : location) :
  m <= round_nearest_even m l <= m + 1.
Proof.
  destruct l as [|[| |]]; simpl; try lia. destruct (Z.even m); lia.
Qed.

Lemma shiftr_pos (m n : Z) : 0 < m -> 0 <= n <= Z.log2 m -> 0 < Z.shiftr m n.
Proof.
  intros Hm Hn. rewrite Z.shiftr_div_pow2 by lia.
  apply Z.div_str_pos. split; [lia|].
  apply Z.le_trans with (2 ^ Z.log2 m).
  - apply Z.pow_le_mono_r; lia.
  - apply Z.log2_spec; assumption.
Qed.

Lemma log2_shiftr_le (m n : Z) :
  0 < m -> 0 <= n <= Z.log2 m -> Z.log2 (Z.shiftr m n) = Z.log2 m - n.
Proof. intros Hm Hn. rewrite Z.log2_shiftr by assumption. lia. Qed.

(** Rounding never yields a NaN and keeps the sign it is given. *)
Lemma binary_round_aux_signed (s : bool) (m e : Z) (l : location) :
  0 <= m -> signed s (binary_round_aux prec emax s m e l).
Proof.
  intros Hm. unfold binary_round_aux.
  destruct (shr_fexp_spec m e l Hm) as [H1 _].
  destruct (shr_fexp prec emax m e l) as [mrs1 e1]. simpl in H1.
  assert (Hm1 : 0 <= shr_m mrs1) by (rewrite H1; apply Z.shiftr_nonneg; assumption).
  pose proof (round_nearest_even_bounds (shr_m mrs1) (loc_of_shr_record mrs1)) as Hr.
  set (m1 := round_nearest_even (shr_m mrs1) (loc_of_shr_record mrs1)) in *.
  assert (Hm1' : 0 <= m1) by lia.
  destruct (shr_fexp_spec m1 e1 loc_Exact Hm1') as [H2 _].
  destruct (shr_fexp prec emax m1 e1 loc_Exact) as [mrs2 e2]. simpl in H2.
  assert (Hm2 : 0 <= shr_m mrs2) by (rewrite H2; apply Z.shiftr_nonneg; assumption).
  unfold signed.
  destruct (shr_m mrs2) as [|p|p]; try reflexivity; try lia.
  destruct (e2 <=? emax - prec); reflexivity.
Qed.

(** Away from underflow and overflow a positive mantissa rounds to a
    non-zero finite number. *)
Lemma binary_round_aux_finite (s : bool) (m e : Z) (l : location) :
  0 < m -> -125 <= Zdigits2 m + e -> Zdigits2 m + e < 128 -> e <= 104 ->
  finite s (binary_round_aux prec emax s m e l).
Proof.
  intros Hm Hlo Hhi He. unfold binary_round_aux.
  destruct (shr_fexp_spec m e l) as [H1 E1]; [lia|].
  destruct (shr_fexp prec emax m e l) as [mrs1 e1]. simpl in H1, E1.
  unfold dropped in H1, E1. rewrite fexp_eq in H1, E1.
  rewrite Zdigits2_log2 in * by assumption.
  set (n1 := Z.max 0 (Z.max (Z.log2 m + 1 + e - 24) (-149) - e)) in *.
  pose proof (Z.log2_nonneg m) as Hlog.
  assert (Hn1 : 0 <= n1 <= Z.log2 m) by lia.
  pose proof (shiftr_pos m n1 Hm Hn1) as P1.
  pose proof (log2_shiftr_le m n1 Hm Hn1) as L1.
  rewrite <- H1 in P1, L1.
  pose proof (round_nearest_even_bounds (shr_m mrs1) (loc_of_shr_record mrs1)) as Hr.
  set (m1 := round_nearest_even (shr_m mrs1) (loc_of_shr_record mrs1)) in *.
  assert (Hm1 : 0 < m1) by lia.
  assert (Ll : Z.log2 (shr_m mrs1) <= Z.log2 m1) by (apply Z.log2_le_mono; lia).
  assert (Lu : Z.log2 m1 <= Z.log2 (shr_m mrs1) + 1).
  { apply Z.le_trans with (Z.log2 (Z.succ (shr_m mrs1))).
    - apply Z.log2_le_mono; lia.
    - pose proof (Z.log2_succ_le (shr_m mrs1)); lia. }
  destruct (shr_fexp_spec m1 e1 loc_Exact) as [H2 E2]; [lia|].
  destruct (shr_fexp prec emax m1 e1 loc_Exact) as [mrs2 e2]. simpl in H2, E2.
  unfold dropped in H2, E2. rewrite fexp_eq in H2, E2.
  rewrite Zdigits2_log2 in * by assumption.
  set (n2 := Z.max 0 (Z.max (Z.log2 m1 + 1 + e1 - 24) (-149) - e1)) in *.
  assert (Hn2 : 0 <= n2 <= Z.log2 m1) by lia.
  pose proof (shiftr_pos m1 n2 Hm1 Hn2) as P2.
  rewrite <- H2 in P2.
  unfold finite.
  destruct (shr_m mrs2) as [|p|p]; try lia.
  replace (e2 <=? emax - prec) with true; [reflexivity|].
  symmetry. apply Z.leb_le. unfold emax, prec. lia.
Qed.

Lemma binary_round_aux_opp (s : bool) (m e : Z) (l : location) :
  binary_round_aux prec emax (negb s) m e l
  = SFopp (binary_round_aux prec emax s m e l).
Proof.
  unfold binary_round_aux.
  destruct (shr_fexp prec emax m e l) as [mrs1 e1].
  destruct (shr_fexp prec emax _ e1 loc_Exact) as [mrs2 e2].
  destruct (shr_m mrs2); try reflexivity.
  destruct (e2 <=? emax - prec); reflexivity.
Qed.

Lemma digits2_pos_iter_xO (p k : positive) :
  Z.pos (digits2_pos (Pos.iter xO p k)) = Z.pos (digits2_pos p) + Z.pos k.
Proof.
  induction k as [|k IH] using Pos.peano_ind.
  - simpl. lia.
  - rewrite Pos.iter_succ. simpl. lia.
Qed.

Lemma binary_round_finite (s : bool) (p : positive) :
  Z.pos p < 2 ^ 32 -> finite s (binary_round prec emax s p 0).
Proof.
  intros Hp. unfold binary_round, shl_align. rewrite fexp_eq.
  assert (Hd : 1 <= Z.pos (digits2_pos p) <= 32).
  { pose proof (Zdigits2_log2 (Z.pos p) eq_refl) as E. cbn [Zdigits2] in E.
    pose proof (Z.log2_nonneg (Z.pos p)).
    assert (Z.log2 (Z.pos p) < 32) by (apply Z.log2_lt_pow2; lia). lia. }
  destruct (Z.max (Z.pos (digits2_pos p) + 0 - 24) (-149) - 0) as [|k|k] eqn:E.
  - apply binary_round_aux_finite; cbn [Zdigits2]; lia.
  - apply binary_round_aux_finite; cbn [Zdigits2]; lia.
  - apply binary_round_aux_finite; cbn [Zdigits2];
      rewrite ?digits2_pos_iter_xO; lia.
Qed.

Lemma of_Z_finite (z : Z) :
  z <> 0 -> Z.abs z < 2 ^ 32 -> finite (z <? 0) (of_Z z).
Proof.
  intros Hz Hb. destruct z as [|p|p]; [congruence| |];
    apply binary_round_finite; lia.
Qed.

Lemma of_Z_opp (z : Z) : z <> 0 -> of_Z (- z) = opp (of_Z z).
Proof.
  intros Hz. destruct z as [|p|p]; [congruence| |];
    unfold of_Z, opp; simpl; unfold binary_round;
    destruct (shl_align _ _ _) as [mz ez].
  - apply (binary_round_aux_opp false).
  - apply (binary_round_aux_opp true).
Qed.

Lemma mul_opp_l (x y : float) : mul (opp x) y = opp (mul x y).
Proof.
  destruct x as [sx|sx| |sx mx ex], y as [sy|sy| |sy my ey]; simpl;
    try reflexivity; try (destruct sx, sy; reflexivity).
  rewrite <- negb_xorb_l. apply binary_round_aux_opp.
Qed.

Lemma div_opp_l (x y : float) : div (opp x) y = opp (div x y).
Proof.
  destruct x as [sx|sx| |sx mx ex], y as [sy|sy| |sy my ey]; simpl;
    try reflexivity; try (destruct sx, sy; reflexivity).
  destruct (SFdiv_core_binary _ _ _ _ _ _) as [[mz ez] lz].
  rewrite <- negb_xorb_l. apply binary_round_aux_opp.
Qed.

Lemma mul_signed (sx sy : bool) (x y : float) :
  signed sx x -> finite sy y -> signed (xorb sx sy) (mul x y).
Proof.
  destruct x as [s|s| |s mx ex], y as [t|t| |t my ey]; simpl;
    try contradiction; intros -> ->; try reflexivity.
  apply binary_round_aux_signed. lia.
Qed.

Lemma div_core_nonneg (mx my : positive) (ex ey : Z) :
  0 <= fst (fst (SFdiv_core_binary prec emax (Z.pos mx) ex (Z.pos my) ey)).
Proof.
  unfold SFdiv_core_binary.
  set (sh := _ - _ - Z.min _ _).
  set (m' := match sh with Z0 => Z.pos mx | Z.pos _ => Z.shiftl (Z.pos mx) sh
                         | Z.neg _ => 0 end).
  assert (Hm' : 0 <= m').
  { subst m'. destruct sh; try lia. apply Z.shiftl_nonneg. lia. }
  pose proof (Z.div_pos m' (Z.pos my) Hm' eq_refl) as Hq.
  unfold Z.div in Hq. destruct (Z.div_eucl m' (Z.pos my)) as [q r]. exact Hq.
Qed.

Lemma div_signed (sx sy : bool) (x y : float) :
  signed sx x -> finite sy y -> signed (xorb sx sy) (div x y).
Proof.
  destruct x as [s|s| |s mx ex], y as [t|t| |t my ey]; simpl;
    try contradiction; intros -> ->; try reflexivity.
  pose proof (div_core_nonneg mx my ex ey) as Hq.
  destruct (SFdiv_core_binary _ _ _ _ _ _) as [[mz ez] lz].
  apply binary_round_aux_signed. exact Hq.
Qed.

Lemma finite_signed (s : bool) (x : float) : finite s x -> signed s x.
Proof. destruct x; simpl; tauto. Qed.

Lemma abs_opp (x : float) : abs (opp x) = abs x.
Proof. destruct x; reflexivity. Qed.

Lemma eqb_refl (s : bool) (x : float) : signed s x -> eqb x x = true.
Proof.
  destruct x as [t|t| |t m e]; simpl; try contradiction; intros _;
    unfold eqb, SFeqb, SFcompare; try reflexivity.
  - destruct t; reflexivity.
  - rewrite Z.compare_refl, Pos.compare_cont_refl. destruct t; reflexivity.
Qed.

Lemma all_from_spec (P : Z -> bool) (n : nat) :
  forall z x, all_from P n z = true -> z <= x < z + Z.of_nat n -> P x = true.
Proof.
  induction n as [|n IH]; intros z x H Hx; [lia|].
  simpl in H. apply andb_prop in H. destruct H as [Hz Hrest].
  destruct (Z.eq_dec x z) as [->|Hne]; [assumption|].
  apply (IH (z + 1)); [assumption | lia].
Qed.

End F32_facts.

(** ** The wheel estimator *)

Module Wheel_facts.

Import Wheel.

(** The per-tick angle of every 16-bit resolution is a positive finite
    number; checked by evaluating all of them. *)
Lemma angle_per_tick_all :
  F32.all_from (fun r => F32.is_finite_pos (angle_per_tick r))
               (Z.to_nat 65535) 1 = true.
Proof. vm_compute. reflexivity. Qed.

Lemma angle_per_tick_finite (r : Z) :
  1 <= r < 65536 -> F32.finite false (angle_per_tick r).
Proof.
  intros Hr.
  assert (H : F32.is_finite_pos (angle_per_tick r) = true).
  { apply (F32_facts.all_from_spec
             (fun r => F32.is_finite_pos (angle_per_tick r))
             (Z.to_nat 65535) 1 r angle_per_tick_all).
    rewrite Z2Nat.id; lia. }
  destruct (angle_per_tick r) as [| | |[|] m e]; simpl in H |- *; congruence.
Qed.

Lemma constructed_make (r : Z) (tire : F32.float) (inv : bool) :
  0 <= r < 65536 -> constructed (make r tire inv).
Proof. intros Hr. repeat split; simpl; lia. Qed.

Lemma constructed_update (w : t) (raw dt : Z) :
  constructed w -> constructed (update w raw dt).
Proof. unfold constructed, update. destruct (reset_ w); simpl; tauto. Qed.

Lemma constructed_reset (w : t) : constructed w -> constructed (reset w).
Proof. unfold constructed. simpl. tauto. Qed.

Lemma update_previous (w : t) (raw dt : Z) :
  previous_ (update w raw dt) = polarity w raw.
Proof. reflexivity. Qed.

Lemma update_reset_flag (w : t) (raw dt : Z) : reset_ (update w raw dt) = false.
Proof. unfold update. destruct (reset_ w) eqn:E; simpl; congruence. Qed.

Lemma update_config (w : t) (raw dt : Z) :
  resolution_ (update w raw dt) = resolution_ w /\
  invert_ (update w raw dt) = invert_ w.
Proof. unfold update. destruct (reset_ w); simpl; split; reflexivity. Qed.

(** In the RUNNING state the velocity comes from the corrected delta
    against the stored reading. *)
Lemma update_velocity_running (w : t) (raw dt : Z) :
  reset_ w = false ->
  angular_velocity_ (update w raw dt)
  = ticks_to_velocity w (tick_delta w (polarity w raw)) dt.
Proof. intros E. unfold update. rewrite E. reflexivity. Qed.

(** In the SEEDING state the reading is compared with itself; with a
    half resolution of at least one tick no correction fires. *)
Lemma update_velocity_seeding (w : t) (raw dt : Z) :
  reset_ w = true -> 1 <= resolution_half_ w ->
  angular_velocity_ (update w raw dt) = ticks_to_velocity w 0 dt.
Proof.
  intros E Hh. unfold update. rewrite E. simpl.
  unfold calculate_angular_velocity, tick_delta, ticks_to_velocity. simpl.
  rewrite Z.sub_diag. simpl.
  replace (0 >=? resolution_half_ w) with false; [reflexivity|].
  symmetry. rewrite Z.geb_leb. apply Z.leb_gt. lia.
Qed.

(** A zero tick delta is reported as +0 exactly. *)
Lemma ticks_to_velocity_zero (w : t) (dt : Z) :
  constructed w -> 1 <= resolution_ w -> 0 < dt < 2 ^ 32 ->
  ticks_to_velocity w 0 dt = F32.zero.
Proof.
  intros (Hr & _ & Ha) Hr1 Hdt. unfold ticks_to_velocity. rewrite Ha.
  pose proof (angle_per_tick_finite (resolution_ w)) as Hf.
  destruct (angle_per_tick (resolution_ w)) as [| | |sa ma ea];
    try (exfalso; apply Hf; lia).
  assert (sa = false) as -> by (apply Hf; lia).
  pose proof (F32_facts.of_Z_finite dt) as Hd.
  destruct (F32.of_Z dt) as [| | |sd md ed]; try (exfalso; apply Hd; lia).
  assert (sd = (dt <? 0)) as -> by (apply Hd; lia).
  replace (dt <? 0) with false by (symmetry; apply Z.ltb_ge; lia).
  reflexivity.
Qed.

(** A non-zero tick delta is reported with its own sign and is no NaN. *)
Lemma ticks_to_velocity_signed (w : t) (delta dt : Z) :
  constructed w -> 1 <= resolution_ w -> 0 < dt < 2 ^ 32 ->
  delta <> 0 -> Z.abs delta < 2 ^ 32 ->
  F32.signed (delta <? 0) (ticks_to_velocity w delta dt).
Proof.
  intros (Hr & _ & Ha) Hr1 Hdt Hd Hb. unfold ticks_to_velocity. rewrite Ha.
  assert (E : (delta <? 0)
              = xorb (xorb (xorb (delta <? 0) false) (dt <? 0)) false).
  { replace (dt <? 0) with false by (symmetry; apply Z.ltb_ge; lia).
    destruct (delta <? 0); reflexivity. }
  rewrite E. apply F32_facts.mul_signed; [|reflexivity].
  apply F32_facts.div_signed; [|apply F32_facts.of_Z_finite; lia].
  apply F32_facts.mul_signed; [|apply angle_per_tick_finite; lia].
  apply F32_facts.finite_signed, F32_facts.of_Z_finite; assumption.
Qed.

Lemma ticks_to_velocity_opp (w : t) (delta dt : Z) :
  delta <> 0 ->
  ticks_to_velocity w (- delta) dt = F32.opp (ticks_to_velocity w delta dt).
Proof.
  intros Hd. unfold ticks_to_velocity.
  rewrite F32_facts.of_Z_opp by assumption.
  rewrite !F32_facts.mul_opp_l, F32_facts.div_opp_l, F32_facts.mul_opp_l.
  reflexivity.
Qed.

Lemma signed_opp (s : bool) (x : F32.float) :
  F32.signed s x -> F32.signed (negb s) (F32.opp x).
Proof. destruct x; simpl; try tauto; intros ->; reflexivity. Qed.

(** Negated tick deltas give mirrored velocities. *)
Lemma ticks_to_velocity_mirrored (wa wb : t) (delta dt : Z) :
  constructed wa -> constructed wb -> resolution_ wb = resolution_ wa ->
  1 <= resolution_ wa -> 0 < dt < 2 ^ 32 -> Z.abs delta < 2 ^ 32 ->
  mirrored (ticks_to_velocity wa delta dt) (ticks_to_velocity wb (- delta) dt).
Proof.
  intros Ca Cb ER Hr Hdt Hb.
  assert (Eab : forall d, ticks_to_velocity wb d dt = ticks_to_velocity wa d dt).
  { intros d. unfold ticks_to_velocity.
    destruct Ca as (_ & _ & ->), Cb as (_ & _ & ->). rewrite ER. reflexivity. }
  rewrite Eab. destruct (Z.eq_dec delta 0) as [->|Hne].
  - simpl. rewrite ticks_to_velocity_zero by assumption.
    split; reflexivity.
  - rewrite ticks_to_velocity_opp by assumption.
    pose proof (ticks_to_velocity_signed wa delta dt Ca Hr Hdt Hne Hb) as Hs.
    split.
    + symmetry. apply F32_facts.abs_opp.
    + apply (F32_facts.eqb_refl (negb (delta <? 0))), signed_opp, Hs.
Qed.

End Wheel_facts.

Module Wheel_spec.

Import Wheel Wheel_facts.

(** C1 (wraparound across zero).  A constructed wheel without inversion
    in the RUNNING state whose stored reading is [k - 1], updated with
    the raw reading [R - 1] where [k] is below half of the resolution
    [R], computes the tick delta [-k], not [R - k], and reports the
    angular velocity [-k * (2 pi / R) / elapsed_us * 1000000] in
    binary32. *)
Theorem wraparound_backward (w : t) (k dt : Z) :
  constructed w -> invert_ w = false -> reset_ w = false ->
  1 <= k -> 2 * k < resolution_ w -> previous_ w = k - 1 ->
  tick_delta w (resolution_ w - 1) = - k /\
  tick_delta w (resolution_ w - 1) <> resolution_ w - k /\
  angular_velocity_ (update w (resolution_ w - 1) dt)
  = F32.mul (F32.div (F32.mul (F32.of_Z (- k))
                              (angle_per_tick (resolution_ w)))
                     (F32.of_Z dt))
            F32.million.
Proof.
  intros (Hr & Hh & Ha) Hi Hs Hk1 Hk Hp.
  assert (Hd : tick_delta w (resolution_ w - 1) = - k).
  { unfold tick_delta. rewrite Hp, Hh.
    pose proof (Z.div_mod (resolution_ w) 2 ltac:(lia)) as Hdiv.
    pose proof (Z.mod_pos_bound (resolution_ w) 2 ltac:(lia)) as Hmod.
    destruct (Z.geb_spec (Z.abs (resolution_ w - 1 - (k - 1)))
                         (resolution_ w / 2)) as [H1|H1]; [|lia].
    destruct (Z.geb_spec (k - 1) (resolution_ w / 2)); lia. }
  split; [assumption|]. split; [lia|].
  rewrite update_velocity_running by assumption.
  unfold polarity. rewrite Hi, Hd. unfold ticks_to_velocity.
  rewrite Ha. reflexivity.
Qed.

Lemma wraparound_backward_witness :
  tick_delta (running_1024 4) 1023 = - 5 /\
  tick_delta (running_1024 4) 1023 <> 1024 - 5 /\
  angular_velocity_ (update (running_1024 4) 1023 1000)
  = F32.mul (F32.div (F32.mul (F32.of_Z (- 5)) (angle_per_tick 1024))
                     (F32.of_Z 1000))
            F32.million.
Proof.
  apply (wraparound_backward (running_1024 4) 5 1000).
  - repeat split; simpl; lia.
  - reflexivity.
  - reflexivity.
  - lia.
  - simpl. lia.
  - reflexivity.
Defined.

(** C2, as stated, fails: from the stored reading 0 to the raw reading
    1023 of a resolution-1024 wheel the naive delta 1023 reaches the half
    resolution and the stored reading is below it, yet the code subtracts
    the resolution (delta -1) instead of adding it. *)
Lemma wraparound_rule_as_stated_fails :
  let w := running_1024 0 in
  let d := 1023 - previous_ w in
  Z.abs d >= resolution_half_ w /\
  previous_ w < resolution_half_ w /\
  tick_delta w 1023 <> d + resolution_ w /\
  tick_delta w 1023 = d - resolution_ w.
Proof. vm_compute. repeat split; congruence. Qed.

(** C2 (amended: the two directions swapped).  In the RUNNING state,
    with [d] the polarity-corrected reading minus the stored reading:
    when [|d|] reaches the half resolution the code adds the resolution
    to [d] if the stored reading is at least the half resolution and
    subtracts it otherwise; a smaller [|d|] is left alone.  The velocity
    is computed from that delta. *)
Theorem wraparound_rule (w : t) (raw dt : Z) :
  reset_ w = false ->
  let d := polarity w raw - previous_ w in
  let corrected :=
    if Z.abs d <? resolution_half_ w then d
    else if previous_ w <? resolution_half_ w then d - resolution_ w
         else d + resolution_ w in
  tick_delta w (polarity w raw) = corrected /\
  angular_velocity_ (update w raw dt) = ticks_to_velocity w corrected dt.
Proof.
  intros Hs d corrected.
  assert (E : tick_delta w (polarity w raw) = corrected).
  { unfold tick_delta, corrected, d. rewrite !Z.geb_leb.
    rewrite (Z.ltb_antisym (resolution_half_ w)),
            (Z.ltb_antisym (resolution_half_ w) (previous_ w)).
    destruct (resolution_half_ w <=? Z.abs (polarity w raw - previous_ w));
      [|reflexivity].
    destruct (resolution_half_ w <=? previous_ w); reflexivity. }
  split; [exact E|].
  rewrite update_velocity_running by assumption. rewrite E. reflexivity.
Qed.

Lemma wraparound_rule_witness :
  tick_delta (running_1024 0) (polarity (running_1024 0) 1023) = - 1 /\
  angular_velocity_ (update (running_1024 0) 1023 1000)
  = ticks_to_velocity (running_1024 0) (- 1) 1000.
Proof.
  apply (wraparound_rule (running_1024 0) 1023 1000). reflexivity.
Defined.

(** C5, as stated, fails for the resolution 1: its half resolution is 0,
    so the seeding delta 0 already reaches it, the correction adds the
    resolution and the first update reports one full turn per period.
    It also fails for a period of 0 microseconds, where the velocity is
    0 / 0, a NaN. *)
Lemma first_update_as_stated_fails :
  let w := make 1 (F32.of_Z 30) false in
  reset_ w = true /\
  angular_velocity_ (update w 0 1000) = S754_finite false 12867964 (-11) /\
  F32.eqb (angular_velocity_ (update w 0 1000)) F32.zero = false /\
  angular_velocity_ (update (make 1024 (F32.of_Z 30) false) 0 0) = S754_nan.
Proof. vm_compute. repeat split. Qed.

(** C5 (amended: resolution at least 2, positive period).  For a
    constructed wheel in the SEEDING state, which is where the constructor
    and [reset] leave it, the first update reports the angular velocity
    +0 whatever the raw sample and the positive period are, stores the
    polarity-corrected sample as the reference reading and leaves the
    wheel in the RUNNING state. *)
Theorem first_update_seeds (w : t) (raw dt : Z) :
  constructed w -> 2 <= resolution_ w -> reset_ w = true ->
  0 < dt < 2 ^ 32 ->
  angular_velocity_ (update w raw dt) = F32.zero /\
  previous_ (update w raw dt) = polarity w raw /\
  reset_ (update w raw dt) = false /\
  (forall r tire inv, reset_ (make r tire inv) = true) /\
  (forall w0, reset_ (reset w0) = true).
Proof.
  intros Hc Hr Hs Hdt. split; [|repeat split; auto using update_reset_flag].
  rewrite update_velocity_seeding; [apply ticks_to_velocity_zero; [assumption|lia|assumption]|assumption|].
  destruct Hc as (_ & -> & _).
  pose proof (Z.div_mod (resolution_ w) 2 ltac:(lia)).
  pose proof (Z.mod_pos_bound (resolution_ w) 2 ltac:(lia)). lia.
Qed.

Lemma first_update_seeds_witness :
  angular_velocity_ (update (reset (running_1024 7)) 300 1000) = F32.zero /\
  previous_ (update (reset (running_1024 7)) 300 1000) = 300 /\
  reset_ (update (reset (running_1024 7)) 300 1000) = false /\
  (forall r tire inv, reset_ (make r tire inv) = true) /\
  (forall w0, reset_ (reset w0) = true).
Proof.
  apply (first_update_seeds (reset (running_1024 7)) 300 1000).
  - repeat split; simpl; lia.
  - simpl. lia.
  - reflexivity.
  - lia.
Defined.

(** C6 (acceleration recurrence).  Every update stores
    [(new angular velocity - previously stored angular acceleration)
     / elapsed_us * 1000000]; the previously stored angular velocity
    plays no part in it. *)
Theorem acceleration_recurrence (w : t) (raw dt : Z) :
  angular_acceleration_ (update w raw dt)
  = F32.mul (F32.div (F32.sub (angular_velocity_ (update w raw dt))
                              (angular_acceleration_ w))
                     (F32.of_Z dt))
            F32.million /\
  (forall stored_velocity,
     angular_acceleration_
       (update (mk (tire_diameter_ w) (invert_ w) (reset_ w) (resolution_ w)
                   (resolution_half_ w) (angle_per_resolution_ w)
                   (previous_ w) (angular_acceleration_ w)
                   stored_velocity (velocity_ w)) raw dt)
     = angular_acceleration_ (update w raw dt)).
Proof.
  split.
  - unfold update. destruct (reset_ w); reflexivity.
  - intros v. unfold update. simpl. destruct (reset_ w); reflexivity.
Qed.

(** C10 (inverted reading of zero).  A wheel with inversion and a
    16-bit resolution [R >= 1] stores [R - r] for a raw reading [r] of
    [[0, R)]: the stored reading lies in [[1, R]], every value of that
    interval is reached, and the raw reading 0 is stored as [R] itself,
    outside [[0, R)]. *)
Theorem inverted_reading_range (w : t) (raw dt : Z) :
  invert_ w = true -> 1 <= resolution_ w < 65536 ->
  0 <= raw < resolution_ w ->
  previous_ (update w raw dt) = resolution_ w - raw /\
  1 <= previous_ (update w raw dt) <= resolution_ w /\
  previous_ (update w 0 dt) = resolution_ w /\
  ~ (0 <= previous_ (update w 0 dt) < resolution_ w) /\
  (forall v, 1 <= v <= resolution_ w ->
     previous_ (update w (resolution_ w - v) dt) = v).
Proof.
  intros Hi Hr Hraw.
  assert (E : forall r, 0 <= r < resolution_ w ->
              previous_ (update w r dt) = resolution_ w - r).
  { intros r Hr'. rewrite update_previous. unfold polarity. rewrite Hi.
    apply Z.mod_small. lia. }
  rewrite (E raw Hraw), (E 0) by lia. repeat split; try lia.
  intros v Hv. rewrite E by lia. lia.
Qed.

Lemma inverted_reading_range_witness :
  let w := make 1024 (F32.of_Z 30) true in
  previous_ (update w 24 1000) = 1024 - 24 /\
  1 <= previous_ (update w 24 1000) <= 1024 /\
  previous_ (update w 0 1000) = 1024 /\
  ~ (0 <= previous_ (update w 0 1000) < 1024) /\
  (forall v, 1 <= v <= 1024 -> previous_ (update w (1024 - v) 1000) = v).
Proof.
  apply (inverted_reading_range (make 1024 (F32.of_Z 30) true) 24 1000).
  - reflexivity.
  - simpl. lia.
  - simpl. lia.
Defined.

Lemma paired_make (R : Z) (tire : F32.float) :
  0 <= R < 65536 -> paired R (make R tire false) (make R tire true).
Proof.
  intros HR. unfold paired.
  repeat split; try (apply constructed_make; assumption);
    try reflexivity; simpl; discriminate.
Qed.

Lemma mirrored_zero : mirrored F32.zero F32.zero.
Proof. split; reflexivity. Qed.

(** Off a tie step the corrected delta of the inverted twin is the
    negated corrected delta. *)
Lemma tick_delta_mirror (R : Z) (wa wb : t) (c : Z) :
  2 <= R -> paired R wa wb -> reset_ wa = false -> 0 <= c < R ->
  tie_step R (previous_ wa) c = false ->
  tick_delta wb (R - c) = - tick_delta wa c.
Proof.
  intros HR (Ca & Cb & Ra & Rb & _ & _ & _ & Hp) Hs Hc Ht.
  destruct (Hp Hs) as [Hpa Hpb].
  destruct Ca as (_ & Ha & _), Cb as (_ & Hb & _).
  unfold tick_delta. rewrite Ha, Hb, Ra, Rb, Hpb.
  unfold tie_step in Ht.
  pose proof (Z.div_mod R 2 ltac:(lia)) as Hdiv.
  pose proof (Z.mod_pos_bound R 2 ltac:(lia)) as Hmod.
  destruct (Z.geb_spec (Z.abs (c - previous_ wa)) (R / 2)) as [H1|H1];
    destruct (Z.geb_spec (Z.abs (R - c - (R - previous_ wa))) (R / 2)) as [H2|H2];
    try lia.
  destruct (Z.geb_spec (previous_ wa) (R / 2)) as [H3|H3];
    destruct (Z.geb_spec (R - previous_ wa) (R / 2)) as [H4|H4];
    simpl in Ht; try discriminate; lia.
Qed.

Lemma tick_delta_bound (w : t) (c : Z) :
  0 <= resolution_ w < 65536 -> Z.abs (previous_ w) <= 65536 ->
  Z.abs c <= 65536 -> Z.abs (tick_delta w c) < 2 ^ 32.
Proof.
  intros Hr Hp Hc. unfold tick_delta.
  destruct (_ >=? _); [destruct (_ >=? _)|]; lia.
Qed.

Lemma paired_step (R : Z) (wa wb : t) (c dt : Z) :
  2 <= R < 65536 -> paired R wa wb -> 0 <= c < R -> 0 < dt < 2 ^ 32 ->
  (reset_ wa = false -> tie_step R (previous_ wa) c = false) ->
  mirrored (angular_velocity_ (update wa c dt))
           (angular_velocity_ (update wb c dt)) /\
  paired R (update wa c dt) (update wb c dt) /\
  reset_ (update wa c dt) = false /\
  previous_ (update wa c dt) = c.
Proof.
  intros HR Hpair Hc Hdt Htie.
  pose proof Hpair as (Ca & Cb & Ra & Rb & Ia & Ib & Hrst & Hp).
  assert (Pa : polarity wa c = c) by (unfold polarity; rewrite Ia; reflexivity).
  assert (Pb : polarity wb c = R - c).
  { unfold polarity. rewrite Ib, Rb. apply Z.mod_small. lia. }
  split; [|split; [|split]].
  - destruct (reset_ wa) eqn:Hs.
    + assert (Hh : forall w, constructed w -> resolution_ w = R ->
                             1 <= resolution_half_ w).
      { intros w (_ & -> & _) ->.
        pose proof (Z.div_mod R 2 ltac:(lia)).
        pose proof (Z.mod_pos_bound R 2 ltac:(lia)). lia. }
      rewrite !update_velocity_seeding by (auto; congruence).
      rewrite !ticks_to_velocity_zero by (auto; lia).
      apply mirrored_zero.
    + rewrite !update_velocity_running by congruence.
      rewrite Pa, Pb.
      rewrite (tick_delta_mirror R wa wb c) by (auto; lia).
      destruct (Hp eq_refl) as [Hpa _].
      apply ticks_to_velocity_mirrored; try assumption; try lia.
      apply tick_delta_bound; destruct Ca as (? & _); lia.
  - unfold paired.
    rewrite !update_reset_flag, !update_previous, Pa, Pb.
    destruct (update_config wa c dt) as [-> ->].
    destruct (update_config wb c dt) as [-> ->].
    repeat split; try (apply constructed_update); try assumption; lia.
  - apply update_reset_flag.
  - rewrite update_previous. exact Pa.
Qed.

Lemma run_mirrored (R : Z) :
  2 <= R < 65536 ->
  forall samples wa wb,
  paired R wa wb -> Forall (sample_ok R) samples ->
  (if reset_ wa then tie_free R (map fst samples)
   else no_tie R (previous_ wa) (map fst samples)) = true ->
  Forall2 mirrored (trace wa samples) (trace wb samples).
Proof.
  intros HR. induction samples as [|[c dt] rest IH]; intros wa wb Hpair Hok Hfree.
  - constructor.
  - inversion Hok as [|? ? [Hc Hdt] Hrest]; subst. simpl in Hc, Hdt.
    assert (Hnext : no_tie R c (map fst rest) = true
                    /\ (reset_ wa = false -> tie_step R (previous_ wa) c = false)).
    { destruct (reset_ wa); simpl in Hfree.
      - split; [assumption | discriminate].
      - apply andb_prop in Hfree. destruct Hfree as [H1 H2].
        split; [assumption|]. intros _. apply negb_true_iff. assumption. }
    destruct Hnext as [Hn Ht].
    destruct (paired_step R wa wb c dt HR Hpair Hc Hdt Ht)
      as (Hm & Hpair' & Hs' & Hp').
    simpl. constructor; [assumption|].
    apply IH; [assumption|assumption|].
    rewrite Hs', Hp'. assumption.
Qed.

(** On an even resolution the only tie step is the one from the half
    resolution to zero. *)
Lemma tie_step_even (R p c : Z) :
  2 <= R -> R mod 2 = 0 -> 0 <= p < R -> 0 <= c < R ->
  tie_step R p c = true <-> p = R / 2 /\ c = 0.
Proof.
  intros HR He Hp Hc. unfold tie_step.
  pose proof (Z.div_mod R 2 ltac:(lia)) as Hdiv.
  rewrite !andb_true_iff, !Z.geb_leb, !Z.leb_le. lia.
Qed.

(** C7, as stated, fails: on resolution 1024 the readings 512 then 0
    give the plain wheel a delta of 512 ticks and the inverted wheel,
    whose corrected readings are 512 then 1024, a delta of 1536 ticks:
    the two velocities have the same sign and different magnitudes. *)
Lemma polarity_as_stated_fails :
  let samples := [(512, 1000); (0, 1000)] in
  let tire := F32.of_Z 30 in
  Forall (sample_ok 1024) samples /\
  trace (make 1024 tire false) samples
  = [F32.zero; S754_finite false 12867964 (-12)] /\
  trace (make 1024 tire true) samples
  = [F32.zero; S754_finite false 9650972 (-10)] /\
  ~ Forall2 mirrored (trace (make 1024 tire false) samples)
                     (trace (make 1024 tire true) samples).
Proof.
  cbv zeta.
  assert (Ea : trace (make 1024 (F32.of_Z 30) false) [(512, 1000); (0, 1000)]
               = [F32.zero; S754_finite false 12867964 (-12)])
    by (vm_compute; reflexivity).
  assert (Eb : trace (make 1024 (F32.of_Z 30) true) [(512, 1000); (0, 1000)]
               = [F32.zero; S754_finite false 9650972 (-10)])
    by (vm_compute; reflexivity).
  rewrite Ea, Eb. split; [|split; [|split]]; try reflexivity.
  - repeat constructor; simpl; lia.
  - intros H. inversion H as [|? ? ? ? _ H']; subst.
    inversion H' as [|? ? ? ? [Habs _] _]; subst.
    discriminate Habs.
Qed.

(** C7 (amended: no tie step).  Two wheels constructed with the same
    resolution [R >= 2] and tire diameter and opposite inversion flags,
    fed the same raw readings of [[0, R)] and the same positive periods,
    report after every step angular velocities of equal magnitude and
    opposite sign, provided no step of the run is a tie step: a step from
    a reading [p] with [R/2 <= p <= R - R/2] on which the naive delta
    reaches the half resolution (for an even [R], the step from [R/2]
    to 0). *)
Theorem polarity_mirror (R : Z) (tire : F32.float) (samples : list (Z * Z)) :
  2 <= R < 65536 -> Forall (sample_ok R) samples ->
  tie_free R (map fst samples) = true ->
  Forall2 mirrored (trace (make R tire false) samples)
                   (trace (make R tire true) samples).
Proof.
  intros HR Hok Hfree.
  apply (run_mirrored R HR samples); [apply paired_make; lia|assumption|].
  exact Hfree.
Qed.

Lemma polarity_mirror_witness :
  Forall2 mirrored
    (trace (make 1024 (F32.of_Z 30) false)
           [(0, 1000); (10, 1000); (1020, 1000); (512, 1000); (1, 1000)])
    (trace (make 1024 (F32.of_Z 30) true)
           [(0, 1000); (10, 1000); (1020, 1000); (512, 1000); (1, 1000)]).
Proof.
  apply (polarity_mirror 1024 (F32.of_Z 30)
           [(0, 1000); (10, 1000); (1020, 1000); (512, 1000); (1, 1000)]).
  - lia.
  - repeat constructor; simpl; lia.
  - reflexivity.
Defined.

End Wheel_spec.

(** ** The pose estimator *)

Module Odometry_spec.

Import Odometry.

(** C3, as stated, fails: with the left wheel one tick ahead and wheel
    velocities no further apart than the machine epsilon, the straight
    branch is taken from heading +0, the new heading is not +0, and [y]
    moves by [s * sin (new heading)], not by [s * sin (old heading)],
    which would leave it at +0. *)
Lemma straight_line_as_stated_fails :
  let st := seeded_tiny in
  let st' := update small_angle_cos small_angle_sin st 1 0 1000 in
  let s := F32.div (F32.mul (velocity_ st') (F32.of_Z 1000)) F32.million in
  straight (left (wheel_vel_ st')) (right (wheel_vel_ st')) = true /\
  angle_ st = F32.zero /\
  angle_ st' = S754_finite false 13176795 (-58) /\
  y_ st' = S754_finite false 10349031 (-93) /\
  F32.add (y_ st) (F32.mul s (small_angle_sin (angle_ st))) = F32.zero /\
  y_ st' <> F32.add (y_ st) (F32.mul s (small_angle_sin (angle_ st))).
Proof. vm_compute. repeat split; discriminate. Qed.

(** C4, as stated, fails: the heading increment does depend on
    [elapsed_us].  From one and the same state, with the same raw
    readings (left one tick ahead, right unchanged), a period of 1000
    microseconds commits the heading 15812153 * 2^-34 and a period of
    2000 microseconds half of it: the wheel velocities, and so [omega],
    are differentiated over the period. *)
Lemma heading_increment_as_stated_fails :
  let st := seeded_pair in
  let st1 := update small_angle_cos small_angle_sin st 1 0 1000 in
  let st2 := update small_angle_cos small_angle_sin st 1 0 2000 in
  angle_ st = F32.zero /\
  angle_ st1 = S754_finite false 15812153 (-34) /\
  angle_ st2 = S754_finite false 15812153 (-35) /\
  angular_velocity_ st1 = S754_finite false 15441556 (-24) /\
  angular_velocity_ st2 = S754_finite false 15441556 (-25) /\
  angle_ st1 <> angle_ st2.
Proof. vm_compute. repeat split; discriminate. Qed.

Section Update.

Variables cosf sinf : F32.float -> F32.float.

(** C3 (amended: the new heading).  When an update takes the straight
    branch, the position moves by [s = v * elapsed_us / 1000000] along
    the heading this very call commits, the old heading plus
    [omega / 1000]: [x += s * cos h] and [y += s * sin h] with [h] the
    new heading. *)
Theorem straight_line_step (st : t) (left_raw right_raw dt : Z) :
  let st' := update cosf sinf st left_raw right_raw dt in
  straight (left (wheel_vel_ st')) (right (wheel_vel_ st')) = true ->
  let s := F32.div (F32.mul (velocity_ st') (F32.of_Z dt)) F32.million in
  let h := F32.add (angle_ st) (F32.div (angular_velocity_ st') F32.thousand) in
  angle_ st' = h /\
  x_ st' = F32.add (x_ st) (F32.mul s (cosf h)) /\
  y_ st' = F32.add (y_ st) (F32.mul s (sinf h)).
Proof.
  unfold update. cbn [wheel_vel_ left right velocity_ angular_velocity_
                      angle_ x_ y_].
  intros Hs. rewrite Hs. repeat split; reflexivity.
Qed.

(** C4 (amended: the period enters through omega).  Every update commits
    the old heading plus [omega / 1000], where
    [omega = (v_left - v_right) / track_width] is the body angular
    velocity of this call; the divisor is the constant 1000 and
    [elapsed_us] enters the heading increment only through [omega], whose
    wheel velocities are differentiated over it: calls from the same
    state that arrive at the same [omega] commit the same heading,
    whatever their readings and periods. *)
Theorem heading_increment (st : t) (left_raw right_raw dt : Z) :
  let st' := update cosf sinf st left_raw right_raw dt in
  angular_velocity_ st'
  = F32.div (F32.sub (Wheel.velocity_ (left_ st')) (Wheel.velocity_ (right_ st')))
            (wheel_track_width_ st) /\
  angle_ st' = F32.add (angle_ st) (F32.div (angular_velocity_ st') F32.thousand) /\
  (forall left_raw2 right_raw2 dt2,
     angular_velocity_ (update cosf sinf st left_raw2 right_raw2 dt2)
     = angular_velocity_ st' ->
     angle_ (update cosf sinf st left_raw2 right_raw2 dt2) = angle_ st').
Proof.
  cbv zeta. split; [reflexivity|]. split; [reflexivity|].
  intros l2 r2 dt2 H. unfold update in *.
  cbn [angular_velocity_ angle_] in *. rewrite H. reflexivity.
Qed.

(** C8 (reset).  Resetting twice is resetting once; after a reset the
    heading, [x] and [y] are +0 and both wheels hold +0 as velocity,
    angular velocity and angular acceleration. *)
Theorem reset_idempotent (st : t) :
  reset (reset st) = reset st /\
  angle_ (reset st) = F32.zero /\
  x_ (reset st) = F32.zero /\
  y_ (reset st) = F32.zero /\
  Wheel.velocity_ (left_ (reset st)) = F32.zero /\
  Wheel.velocity_ (right_ (reset st)) = F32.zero /\
  Wheel.angular_velocity_ (left_ (reset st)) = F32.zero /\
  Wheel.angular_velocity_ (right_ (reset st)) = F32.zero /\
  Wheel.angular_acceleration_ (left_ (reset st)) = F32.zero /\
  Wheel.angular_acceleration_ (right_ (reset st)) = F32.zero.
Proof. repeat split; reflexivity. Qed.

(** C9 (frame of reset).  A reset leaves the three exposed snapshots
    and the body velocity and angular velocity as they were, so after
    an update followed by a reset they still hold what that update
    wrote; it also keeps the track width and, inside each wheel, the
    stored reading, the resolution and the inversion flag. *)
Theorem reset_frame (st : t) (left_raw right_raw dt : Z) :
  wheel_vel_ (reset st) = wheel_vel_ st /\
  wheel_ang_vel_ (reset st) = wheel_ang_vel_ st /\
  wheel_ang_accel_ (reset st) = wheel_ang_accel_ st /\
  velocity_ (reset st) = velocity_ st /\
  angular_velocity_ (reset st) = angular_velocity_ st /\
  wheel_track_width_ (reset st) = wheel_track_width_ st /\
  Wheel.previous_ (left_ (reset st)) = Wheel.previous_ (left_ st) /\
  Wheel.previous_ (right_ (reset st)) = Wheel.previous_ (right_ st) /\
  Wheel.resolution_ (left_ (reset st)) = Wheel.resolution_ (left_ st) /\
  Wheel.resolution_ (right_ (reset st)) = Wheel.resolution_ (right_ st) /\
  Wheel.invert_ (left_ (reset st)) = Wheel.invert_ (left_ st) /\
  Wheel.invert_ (right_ (reset st)) = Wheel.invert_ (right_ st) /\
  (let st' := update cosf sinf st left_raw right_raw dt in
   wheel_vel_ (reset st')
   = {| left := Wheel.velocity_ (left_ st');
        right := Wheel.velocity_ (right_ st') |} /\
   wheel_ang_vel_ (reset st')
   = {| left := Wheel.angular_velocity_ (left_ st');
        right := Wheel.angular_velocity_ (right_ st') |} /\
   wheel_ang_accel_ (reset st')
   = {| left := Wheel.angular_acceleration_ (left_ st');
        right := Wheel.angular_acceleration_ (right_ st') |} /\
   velocity_ (reset st')
   = F32.div (F32.add (left (wheel_vel_ st')) (right (wheel_vel_ st'))) F32.two /\
   angular_velocity_ (reset st')
   = F32.div (F32.sub (left (wheel_vel_ st')) (right (wheel_vel_ st')))
             (wheel_track_width_ st)).
Proof. repeat split; reflexivity. Qed.

End Update.

Lemma heading_increment_witness :
  angle_ (update small_angle_cos small_angle_sin seeded_pair 2 0 2000)
  = angle_ (update small_angle_cos small_angle_sin seeded_pair 1 0 1000).
Proof.
  apply (heading_increment small_angle_cos small_angle_sin seeded_pair 1 0 1000).
  vm_compute. reflexivity.
Defined.

Lemma straight_line_step_witness :
  let st := seeded_tiny in
  let st' := update small_angle_cos small_angle_sin st 1 0 1000 in
  let s := F32.div (F32.mul (velocity_ st') (F32.of_Z 1000)) F32.million in
  let h := F32.add (angle_ st) (F32.div (angular_velocity_ st') F32.thousand) in
  angle_ st' = h /\
  x_ st' = F32.add (x_ st) (F32.mul s (small_angle_cos h)) /\
  y_ st' = F32.add (y_ st) (F32.mul s (small_angle_sin h)).
Proof.
  apply (straight_line_step small_angle_cos small_angle_sin seeded_tiny 1 0 1000).
  vm_compute. reflexivity.
Defined.

End Odometry_spec.

(** ** More on the wheel estimator *)

Module Wheel_extra.

Import Wheel Wheel_facts.

(** Settles a closed side condition by evaluating it. *)
Ltac by_evaluation :=
  vm_compute; repeat split; solve [reflexivity | discriminate | lia].

Lemma half_bounds (R : Z) : 2 * (R / 2) <= R < 2 * (R / 2) + 2.
Proof.
  pose proof (Z.div_mod R 2 ltac:(lia)).
  pose proof (Z.mod_pos_bound R 2 ltac:(lia)). lia.
Qed.

Lemma update_acceleration (w : t) (raw dt : Z) :
  angular_acceleration_ (update w raw dt)
  = F32.mul (F32.div (F32.sub (angular_velocity_ (update w raw dt))
                              (angular_acceleration_ w))
                     (F32.of_Z dt))
            F32.million.
Proof. unfold update. destruct (reset_ w); reflexivity. Qed.

Lemma update_linear_velocity (w : t) (raw dt : Z) :
  velocity_ (update w raw dt)
  = F32.mul (angular_velocity_ (update w raw dt))
            (F32.div (tire_diameter_ w) F32.two).
Proof. unfold update. destruct (reset_ w); reflexivity. Qed.

Lemma uint16_tick_delta_bound (w : t) (c : Z) :
  0 <= resolution_ w < 65536 -> 0 <= previous_ w < 65536 -> 0 <= c < 65536 ->
  Z.abs (tick_delta w c) < 2 ^ 32.
Proof.
  intros Hr Hp Hc. unfold tick_delta.
  destruct (_ >=? _); [destruct (_ >=? _)|]; lia.
Qed.

(** The rotation a RUNNING wheel computes when the raw reading moved by
    [t] ticks modulo the resolution, [|t|] below the half resolution. *)
Lemma rotation_delta (w : t) (p t : Z) :
  constructed w -> reset_ w = false ->
  0 <= p < resolution_ w -> previous_ w = polarity w p ->
  - resolution_half_ w < t < resolution_half_ w ->
  let raw := (p + t) mod resolution_ w in
  let rotation := if invert_ w then - t else t in
  0 <= raw < resolution_ w /\
  tick_delta w (polarity w raw) = rotation.
Proof.
  intros (Hr & Hh & Ha) Hs Hp Hprev Ht raw rotation.
  pose proof (half_bounds (resolution_ w)) as Hb.
  assert (Hraw : 0 <= raw < resolution_ w) by (apply Z.mod_pos_bound; lia).
  assert (Hcases : raw = p + t \/ raw = p + t - resolution_ w
                   \/ raw = p + t + resolution_ w).
  { unfold raw.
    destruct (Z_lt_le_dec (p + t) 0);
      [|destruct (Z_lt_le_dec (p + t) (resolution_ w))].
    - right. right. symmetry. apply (Z.mod_unique _ _ (-1)); lia.
    - left. apply Z.mod_small. lia.
    - right. left. symmetry. apply (Z.mod_unique _ _ 1); lia. }
  assert (Hd : tick_delta w (polarity w raw) = rotation).
  { unfold tick_delta. rewrite Hprev. unfold polarity, rotation.
    destruct (invert_ w).
    - rewrite !Z.mod_small by lia. rewrite Hh in *.
      destruct (Z.geb_spec (Z.abs (resolution_ w - raw - (resolution_ w - p)))
                           (resolution_ w / 2));
        destruct (Z.geb_spec (resolution_ w - p) (resolution_ w / 2)); lia.
    - rewrite Hh in *.
      destruct (Z.geb_spec (Z.abs (raw - p)) (resolution_ w / 2));
        destruct (Z.geb_spec p (resolution_ w / 2)); lia. }
  split; assumption.
Qed.

(** X1 (rotation recovered).  A RUNNING wheel whose raw reading moved by
    [t] ticks modulo the resolution, forward or backward and across the
    zero crossing or not, with [|t|] below the half resolution, computes
    the tick delta [t], or [-t] when it is inverted, and reports the
    velocity of that delta.  Holds for odd resolutions too. *)
Theorem rotation_recovered (w : t) (p t dt : Z) :
  constructed w -> reset_ w = false ->
  0 <= p < resolution_ w -> previous_ w = polarity w p ->
  - resolution_half_ w < t < resolution_half_ w ->
  let raw := (p + t) mod resolution_ w in
  let rotation := if invert_ w then - t else t in
  0 <= raw < resolution_ w /\
  tick_delta w (polarity w raw) = rotation /\
  angular_velocity_ (update w raw dt) = ticks_to_velocity w rotation dt.
Proof.
  intros Hc Hs Hp Hprev Ht raw rotation.
  destruct (rotation_delta w p t Hc Hs Hp Hprev Ht) as [Hraw Hd].
  fold raw in Hraw, Hd. fold rotation in Hd.
  split; [assumption|]. split; [assumption|].
  rewrite update_velocity_running by assumption.
  rewrite Hd. reflexivity.
Qed.

Lemma rotation_recovered_witness :
  let w := update (make 1024 (F32.of_Z 30) true) 1020 1000 in
  0 <= (1020 + 10) mod 1024 < 1024 /\
  tick_delta w (polarity w ((1020 + 10) mod 1024)) = - 10 /\
  angular_velocity_ (update w ((1020 + 10) mod 1024) 1000)
  = ticks_to_velocity w (- 10) 1000.
Proof.
  apply (rotation_recovered (update (make 1024 (F32.of_Z 30) true) 1020 1000)
                            1020 10 1000).
  - by_evaluation.
  - reflexivity.
  - by_evaluation.
  - reflexivity.
  - by_evaluation.
Defined.

(** X2 (direction symmetry).  From the same RUNNING state, turning back
    by [t] ticks reports bit for bit the negated angular velocity of
    turning forward by [t] ticks. *)
Theorem direction_symmetry (w : t) (p t dt : Z) :
  constructed w -> reset_ w = false ->
  0 <= p < resolution_ w -> previous_ w = polarity w p ->
  0 < t < resolution_half_ w ->
  angular_velocity_ (update w ((p - t) mod resolution_ w) dt)
  = F32.opp (angular_velocity_ (update w ((p + t) mod resolution_ w) dt)).
Proof.
  intros Hc Hs Hp Hprev Ht.
  rewrite !update_velocity_running by assumption.
  destruct (rotation_delta w p t Hc Hs Hp Hprev ltac:(lia)) as (_ & ->).
  replace (p - t) with (p + - t) by lia.
  destruct (rotation_delta w p (- t) Hc Hs Hp Hprev ltac:(lia)) as (_ & ->).
  destruct (invert_ w).
  - rewrite Z.opp_involutive.
    rewrite (ticks_to_velocity_opp w t) by lia.
    destruct (ticks_to_velocity w t dt) as [[|]|[|]| |[|] m e]; reflexivity.
  - apply ticks_to_velocity_opp. lia.
Qed.

Lemma direction_symmetry_witness :
  angular_velocity_ (update (running_1024 3) ((3 - 7) mod 1024) 1000)
  = F32.opp (angular_velocity_ (update (running_1024 3) ((3 + 7) mod 1024) 1000)).
Proof.
  apply (direction_symmetry (running_1024 3) 3 7 1000).
  - by_evaluation.
  - reflexivity.
  - by_evaluation.
  - reflexivity.
  - by_evaluation.
Defined.

(** X3 (shortest path).  On an even resolution [R] a wheel without
    inversion, whatever two readings of [[0, R)] it compares, computes a
    tick delta of at most [R/2] in magnitude that is congruent to the
    difference of the readings modulo [R]. *)
Theorem shortest_path (w : t) (raw : Z) :
  constructed w -> invert_ w = false ->
  2 <= resolution_ w -> resolution_ w mod 2 = 0 ->
  0 <= previous_ w < resolution_ w -> 0 <= raw < resolution_ w ->
  let d := tick_delta w (polarity w raw) in
  - (resolution_ w / 2) <= d <= resolution_ w / 2 /\
  (d - (raw - previous_ w)) mod resolution_ w = 0.
Proof.
  intros (Hr & Hh & _) Hi HR He Hp Hraw.
  pose proof (Z.div_mod (resolution_ w) 2 ltac:(lia)) as Hdiv.
  unfold polarity. rewrite Hi. unfold tick_delta. rewrite Hh. cbv zeta.
  destruct (Z.geb_spec (Z.abs (raw - previous_ w)) (resolution_ w / 2));
    [destruct (Z.geb_spec (previous_ w) (resolution_ w / 2))|].
  - split; [lia|].
    replace (raw - previous_ w + resolution_ w - (raw - previous_ w))
      with (1 * resolution_ w) by lia.
    apply Z.mod_mul. lia.
  - split; [lia|].
    replace (raw - previous_ w - resolution_ w - (raw - previous_ w))
      with (-1 * resolution_ w) by lia.
    apply Z.mod_mul. lia.
  - split; [lia|]. rewrite Z.sub_diag. apply Z.mod_0_l. lia.
Qed.

Lemma shortest_path_witness :
  let d := tick_delta (running_1024 900) (polarity (running_1024 900) 100) in
  - (1024 / 2) <= d <= 1024 / 2 /\ (d - (100 - 900)) mod 1024 = 0.
Proof.
  apply (shortest_path (running_1024 900) 100).
  - by_evaluation.
  - reflexivity.
  - by_evaluation.
  - reflexivity.
  - by_evaluation.
  - by_evaluation.
Defined.

Lemma ticks_to_velocity_number (w : t) (d dt : Z) :
  constructed w -> 1 <= resolution_ w -> 0 < dt < 2 ^ 32 -> Z.abs d < 2 ^ 32 ->
  (d = 0 -> ticks_to_velocity w d dt = F32.zero) /\
  (d <> 0 -> F32.signed (d <? 0) (ticks_to_velocity w d dt)) /\
  ticks_to_velocity w d dt <> S754_nan.
Proof.
  intros Hc Hr Hdt Hd.
  split; [intros ->; apply ticks_to_velocity_zero; assumption|].
  split; [intros Hne; apply ticks_to_velocity_signed; assumption|].
  destruct (Z.eq_dec d 0) as [->|Hne].
  - rewrite ticks_to_velocity_zero by assumption. discriminate.
  - pose proof (ticks_to_velocity_signed w d dt Hc Hr Hdt Hne Hd) as H.
    intros E. rewrite E in H. exact H.
Qed.

(** X4 (no NaN, sign of the rotation).  For a constructed wheel with a
    resolution of at least 1, 16-bit readings and a positive period, the
    angular velocity an update reports is never a NaN; in the RUNNING
    state it is +0 for a zero tick delta and carries the sign of a
    non-zero one. *)
Theorem velocity_is_no_nan (w : t) (raw dt : Z) :
  constructed w -> 1 <= resolution_ w -> 0 < dt < 2 ^ 32 ->
  0 <= raw < 65536 -> 0 <= previous_ w < 65536 ->
  angular_velocity_ (update w raw dt) <> S754_nan /\
  (reset_ w = false ->
   let d := tick_delta w (polarity w raw) in
   (d = 0 -> angular_velocity_ (update w raw dt) = F32.zero) /\
   (d <> 0 -> F32.signed (d <? 0) (angular_velocity_ (update w raw dt)))).
Proof.
  intros Hc Hr Hdt Hraw Hprev.
  assert (Hpol : 0 <= polarity w raw < 65536).
  { unfold polarity. destruct (invert_ w); [apply Z.mod_pos_bound|]; lia. }
  pose proof Hc as (HR & _ & _).
  destruct (reset_ w) eqn:Hs.
  - split; [|discriminate].
    unfold update. rewrite Hs. cbn [angular_velocity_].
    unfold calculate_angular_velocity.
    match goal with |- ticks_to_velocity ?s ?d _ <> _ =>
      change (ticks_to_velocity s d dt) with (ticks_to_velocity w d dt);
      apply (ticks_to_velocity_number w d dt); try assumption;
      apply uint16_tick_delta_bound; cbn [resolution_ previous_]; lia
    end.
  - rewrite update_velocity_running by assumption.
    assert (Hb : Z.abs (tick_delta w (polarity w raw)) < 2 ^ 32)
      by (apply uint16_tick_delta_bound; lia).
    destruct (ticks_to_velocity_number w _ dt Hc Hr Hdt Hb) as (H0 & H1 & H2).
    split; [assumption|]. intros _. split; assumption.
Qed.

Lemma velocity_is_no_nan_witness :
  angular_velocity_ (update (running_1024 900) 100 1000) <> S754_nan /\
  (reset_ (running_1024 900) = false ->
   let d := tick_delta (running_1024 900) (polarity (running_1024 900) 100) in
   (d = 0 -> angular_velocity_ (update (running_1024 900) 100 1000) = F32.zero) /\
   (d <> 0 -> F32.signed (d <? 0)
                (angular_velocity_ (update (running_1024 900) 100 1000)))).
Proof.
  apply (velocity_is_no_nan (running_1024 900) 100 1000).
  - by_evaluation.
  - by_evaluation.
  - lia.
  - lia.
  - by_evaluation.
Defined.

(** A zero angular velocity gives a zero linear velocity when the tire
    radius is a positive finite number. *)
Lemma zero_linear_velocity (w : t) (raw dt : Z) :
  angular_velocity_ (update w raw dt) = F32.zero ->
  F32.finite false (F32.div (tire_diameter_ w) F32.two) ->
  velocity_ (update w raw dt) = F32.zero.
Proof.
  intros Hav Hrad. rewrite update_linear_velocity, Hav.
  destruct (F32.div (tire_diameter_ w) F32.two) as [| | |sr mr er];
    try contradiction.
  simpl in Hrad. subst sr. reflexivity.
Qed.

(** From a zero stored acceleration a zero angular velocity gives a zero
    acceleration. *)
Lemma zero_acceleration (w : t) (raw dt : Z) :
  angular_velocity_ (update w raw dt) = F32.zero ->
  angular_acceleration_ w = F32.zero -> 0 < dt < 2 ^ 32 ->
  angular_acceleration_ (update w raw dt) = F32.zero.
Proof.
  intros Hav Hacc Hdt. rewrite update_acceleration, Hav, Hacc.
  pose proof (F32_facts.of_Z_finite dt ltac:(lia) ltac:(lia)) as Hfd.
  destruct (F32.of_Z dt) as [| | |sd md ed]; try contradiction.
  simpl in Hfd. assert (sd = false) as ->
    by (rewrite Hfd; apply Z.ltb_ge; lia).
  reflexivity.
Qed.

Lemma reset_update_velocity (w : t) (raw dt : Z) :
  constructed w -> 2 <= resolution_ w -> 0 < dt < 2 ^ 32 ->
  angular_velocity_ (update (reset w) raw dt) = F32.zero.
Proof.
  intros Hc HR Hdt. pose proof Hc as (_ & Hh & _).
  assert (Hhalf : 1 <= resolution_half_ (reset w)).
  { cbn [reset resolution_half_]. rewrite Hh.
    pose proof (half_bounds (resolution_ w)). lia. }
  rewrite update_velocity_seeding by (auto; reflexivity).
  apply ticks_to_velocity_zero;
    [apply constructed_reset; assumption | cbn [reset resolution_]; lia
     | assumption].
Qed.

(** X5 (at rest after a reset).  With a resolution of at least 2, a
    positive period and a positive finite tire radius, the first update
    after a reset reports +0 as angular velocity, as angular acceleration
    and as linear velocity, whatever the raw reading and whatever the
    wheel did before the reset. *)
Theorem reset_then_update_at_rest (w : t) (raw dt : Z) :
  constructed w -> 2 <= resolution_ w -> 0 < dt < 2 ^ 32 ->
  F32.finite false (F32.div (tire_diameter_ w) F32.two) ->
  let w' := update (reset w) raw dt in
  angular_velocity_ w' = F32.zero /\
  angular_acceleration_ w' = F32.zero /\
  velocity_ w' = F32.zero.
Proof.
  intros Hc HR Hdt Hrad w'.
  pose proof (reset_update_velocity w raw dt Hc HR Hdt) as Hav.
  split; [exact Hav|]. split.
  - apply zero_acceleration; [exact Hav | reflexivity | assumption].
  - apply zero_linear_velocity; [exact Hav | exact Hrad].
Qed.

Lemma reset_then_update_at_rest_witness :
  let w' := update (reset (update (running_1024 900) 100 1000)) 555 1000 in
  angular_velocity_ w' = F32.zero /\
  angular_acceleration_ w' = F32.zero /\
  velocity_ w' = F32.zero.
Proof.
  apply (reset_then_update_at_rest (update (running_1024 900) 100 1000) 555 1000).
  - by_evaluation.
  - by_evaluation.
  - lia.
  - reflexivity.
Defined.

Lemma unchanged_reading_velocity (w : t) (raw dt : Z) :
  constructed w -> 2 <= resolution_ w -> reset_ w = false ->
  previous_ w = polarity w raw -> 0 < dt < 2 ^ 32 ->
  angular_velocity_ (update w raw dt) = F32.zero.
Proof.
  intros Hc HR Hs Hprev Hdt.
  pose proof Hc as (_ & Hh & _).
  pose proof (half_bounds (resolution_ w)) as Hb.
  assert (Hd : tick_delta w (polarity w raw) = 0).
  { unfold tick_delta. rewrite Hprev, Z.sub_diag, Hh. simpl.
    destruct (Z.geb_spec 0 (resolution_ w / 2)); [lia|reflexivity]. }
  rewrite update_velocity_running by assumption. rewrite Hd.
  apply ticks_to_velocity_zero; [assumption|lia|assumption].
Qed.

(** X6 (unchanged reading).  A constructed RUNNING wheel with a
    resolution of at least 2 and a positive finite tire radius that reads
    the same raw value again after a positive period
    ([0 < elapsed_us < 2^32]) reports +0 as angular and as linear
    velocity and keeps its stored reading. *)
Theorem unchanged_reading_at_rest (w : t) (raw dt : Z) :
  constructed w -> 2 <= resolution_ w -> reset_ w = false ->
  previous_ w = polarity w raw -> 0 < dt < 2 ^ 32 ->
  F32.finite false (F32.div (tire_diameter_ w) F32.two) ->
  angular_velocity_ (update w raw dt) = F32.zero /\
  velocity_ (update w raw dt) = F32.zero /\
  previous_ (update w raw dt) = previous_ w.
Proof.
  intros Hc HR Hs Hprev Hdt Hrad.
  pose proof (unchanged_reading_velocity w raw dt Hc HR Hs Hprev Hdt) as Hav.
  split; [exact Hav|]. split.
  - apply zero_linear_velocity; [exact Hav | exact Hrad].
  - rewrite update_previous. symmetry. assumption.
Qed.

Lemma unchanged_reading_at_rest_witness :
  angular_velocity_ (update (running_1024 900) 900 1000) = F32.zero /\
  velocity_ (update (running_1024 900) 900 1000) = F32.zero /\
  previous_ (update (running_1024 900) 900 1000) = previous_ (running_1024 900).
Proof.
  apply (unchanged_reading_at_rest (running_1024 900) 900 1000).
  - by_evaluation.
  - by_evaluation.
  - reflexivity.
  - reflexivity.
  - lia.
  - reflexivity.
Defined.

(** X7 (state machine over a series of calls).  Whatever series of
    updates and resets a constructed wheel goes through, it stays
    constructed, keeps its resolution, inversion flag and tire diameter,
    and is in the SEEDING state exactly when the last call was a reset
    (or, with no call at all, when it started there). *)
Theorem calls_state (w : t) (cs : list call) :
  constructed w ->
  let w' := calls w cs in
  constructed w' /\
  resolution_ w' = resolution_ w /\
  invert_ w' = invert_ w /\
  tire_diameter_ w' = tire_diameter_ w /\
  reset_ w' = match last (map Some cs) None with
              | Some Reset => true
              | Some (Update _ _) => false
              | None => reset_ w
              end.
Proof.
  intros Hc. induction cs as [|c cs IH] using rev_ind.
  - simpl. repeat split; try reflexivity; apply Hc.
  - destruct IH as (H1 & H2 & H3 & H4 & _).
    unfold calls in *. rewrite fold_left_app. cbn [fold_left].
    rewrite map_app. cbn [map]. rewrite last_last. cbv zeta.
    set (w1 := fold_left step cs w) in *.
    destruct c as [raw dt|].
    + cbn [step]. destruct (update_config w1 raw dt) as [-> ->].
      rewrite update_reset_flag.
      split; [apply constructed_update; assumption|].
      repeat split; try assumption.
      unfold update. destruct (reset_ w1); assumption.
    + cbn [step reset resolution_ invert_ tire_diameter_ reset_].
      split; [apply constructed_reset; assumption|].
      repeat split; assumption.
Qed.

Lemma calls_state_witness :
  let w := make 1024 (F32.of_Z 30) true in
  let w' := calls w [Update 5 1000; Reset; Update 7 1000; Update 9 1000] in
  constructed w' /\
  resolution_ w' = 1024 /\
  invert_ w' = true /\
  tire_diameter_ w' = F32.of_Z 30 /\
  reset_ w' = false.
Proof.
  apply (calls_state (make 1024 (F32.of_Z 30) true)
                     [Update 5 1000; Reset; Update 7 1000; Update 9 1000]).
  by_evaluation.
Defined.

End Wheel_extra.

(** ** More on the pose estimator *)

Module Odometry_extra.

Import Odometry.

(** Settles a closed side condition by evaluating it. *)
Ltac by_evaluation :=
  vm_compute; repeat split; solve [reflexivity | discriminate | lia].

Lemma sub_same (x : F32.float) :
  F32.is_number x = true -> F32.sub x x = F32.zero.
Proof.
  destruct x as [[|]| | |s m e]; try discriminate; intros _; try reflexivity.
  unfold F32.sub, SFsub. rewrite Z.sub_diag. reflexivity.
Qed.

Lemma add_opp_number (x : F32.float) :
  F32.is_number x = true -> F32.add x (F32.opp x) = F32.zero.
Proof.
  destruct x as [[|]| | |[|] m e]; try discriminate; intros _; try reflexivity;
    unfold F32.add, F32.opp, SFadd, SFopp, cond_Zopp; cbn [negb];
    rewrite ?Z.add_opp_diag_r, ?Z.add_opp_diag_l; reflexivity.
Qed.

Lemma add_zero_r (x : F32.float) (s : bool) :
  x <> S754_nan -> F32.eqb (F32.add x (S754_zero s)) x = true.
Proof.
  intros Hx. destruct x as [[|]|[|]| |[|] m e]; try congruence;
    destruct s; try reflexivity;
    unfold F32.add, SFadd, F32.eqb, SFeqb, SFcompare;
    rewrite Z.compare_refl, Pos.compare_cont_refl; reflexivity.
Qed.

Section Update.

Variables cosf sinf : F32.float -> F32.float.

(** The turn computed from two equal wheel velocities: the straight test
    passes, the angular velocity is a zero and adding its thousandth
    leaves a heading that compares equal. *)
Lemma equal_velocity_turn (v track angle : F32.float) (s : bool) :
  F32.is_number v = true -> F32.finite s track -> angle <> S754_nan ->
  straight v v = true /\
  F32.div (F32.sub v v) track = S754_zero s /\
  F32.eqb (F32.add angle (F32.div (F32.div (F32.sub v v) track) F32.thousand))
          angle = true.
Proof.
  intros Hnum Htrack Hangle.
  unfold straight. rewrite sub_same by assumption.
  destruct track as [| | |st mt et]; try contradiction.
  simpl in Htrack. subst st.
  split; [reflexivity|]. split; [reflexivity|].
  change (F32.div (F32.div F32.zero (S754_finite s mt et)) F32.thousand)
    with (S754_zero (xorb (xorb false s) false)).
  apply add_zero_r. assumption.
Qed.

(** X8 (equal wheel velocities).  When the two wheel velocities of an
    update are the same number, the track width is a non-zero finite
    number and the heading is no NaN, the update takes the straight
    branch, reports a zero body angular velocity and commits a heading
    that compares equal to the old one. *)
Theorem equal_velocities_keep_heading
    (st : t) (left_raw right_raw dt : Z) (s : bool) :
  let st' := update cosf sinf st left_raw right_raw dt in
  left (wheel_vel_ st') = right (wheel_vel_ st') ->
  F32.is_number (left (wheel_vel_ st')) = true ->
  F32.finite s (wheel_track_width_ st) ->
  angle_ st <> S754_nan ->
  straight (left (wheel_vel_ st')) (right (wheel_vel_ st')) = true /\
  angular_velocity_ st' = S754_zero s /\
  F32.eqb (angle_ st') (angle_ st) = true.
Proof.
  intros st' Heq Hnum Htrack Hangle.
  destruct (equal_velocity_turn (left (wheel_vel_ st')) (wheel_track_width_ st)
              (angle_ st) s Hnum Htrack Hangle) as (Hs & Hw & Ha).
  rewrite <- Heq. split; [exact Hs|]. split.
  - unfold st', update. cbn [angular_velocity_].
    unfold st', update in Heq, Hw. cbn [wheel_vel_ left right] in Heq, Hw.
    rewrite <- Heq. exact Hw.
  - unfold st', update. cbn [angle_].
    unfold st', update in Heq, Ha. cbn [wheel_vel_ left right] in Heq, Ha.
    rewrite <- Heq. exact Ha.
Qed.

(** X9 (pose at the origin after a reset).  With resolutions of at least
    2, a positive period, a positive finite tire radius, a non-zero finite
    track width and a cosine and sine of +0 that are numbers, the first
    update after a reset leaves heading, [x] and [y] at +0 and reports
    zero body and wheel velocities, whatever the raw readings are and
    whatever the pose was before the reset. *)
Theorem reset_then_update_at_origin
    (st : t) (left_raw right_raw dt : Z) (s : bool) :
  Wheel.constructed (left_ st) -> Wheel.constructed (right_ st) ->
  2 <= Wheel.resolution_ (left_ st) -> 2 <= Wheel.resolution_ (right_ st) ->
  0 < dt < 2 ^ 32 ->
  F32.finite false (F32.div (Wheel.tire_diameter_ (left_ st)) F32.two) ->
  F32.finite false (F32.div (Wheel.tire_diameter_ (right_ st)) F32.two) ->
  F32.finite s (wheel_track_width_ st) ->
  F32.is_number (cosf F32.zero) = true ->
  F32.is_number (sinf F32.zero) = true ->
  let st' := update cosf sinf (reset st) left_raw right_raw dt in
  angle_ st' = F32.zero /\ x_ st' = F32.zero /\ y_ st' = F32.zero /\
  velocity_ st' = F32.zero /\ angular_velocity_ st' = S754_zero s /\
  wheel_vel_ st' = {| left := F32.zero; right := F32.zero |} /\
  wheel_ang_vel_ st' = {| left := F32.zero; right := F32.zero |} /\
  wheel_ang_accel_ st' = {| left := F32.zero; right := F32.zero |}.
Proof.
  intros Hcl Hcr Hrl Hrr Hdt Htl Htr Htrack Hcos Hsin.
  pose proof (Wheel_extra.reset_update_velocity (left_ st) left_raw dt
                Hcl Hrl Hdt) as Lv.
  pose proof (Wheel_extra.reset_update_velocity (right_ st) right_raw dt
                Hcr Hrr Hdt) as Rv.
  pose proof (Wheel_extra.zero_acceleration (Wheel.reset (left_ st)) left_raw dt
                Lv eq_refl Hdt) as La.
  pose proof (Wheel_extra.zero_acceleration (Wheel.reset (right_ st)) right_raw dt
                Rv eq_refl Hdt) as Ra.
  pose proof (Wheel_extra.zero_linear_velocity (Wheel.reset (left_ st)) left_raw dt
                Lv Htl) as Ll.
  pose proof (Wheel_extra.zero_linear_velocity (Wheel.reset (right_ st)) right_raw dt
                Rv Htr) as Rl.
  unfold update. cbn [reset left_ right_ wheel_track_width_ angle_ x_ y_].
  cbn [angle_ x_ y_ velocity_ angular_velocity_ wheel_vel_ wheel_ang_vel_
       wheel_ang_accel_].
  rewrite Lv, La, Ll, Rv, Ra, Rl.
  pose proof (F32_facts.of_Z_finite dt ltac:(lia) ltac:(lia)) as Hfd.
  destruct (F32.of_Z dt) as [| | |sd md ed]; try contradiction.
  simpl in Hfd. assert (sd = false) as ->
    by (rewrite Hfd; apply Z.ltb_ge; lia).
  destruct (wheel_track_width_ st) as [| | |st' mt et]; try contradiction.
  simpl in Htrack. subst st'.
  change (straight F32.zero F32.zero) with true. cbv iota.
  change (F32.div (F32.add F32.zero F32.zero) F32.two) with F32.zero.
  change (F32.div (F32.sub F32.zero F32.zero) (S754_finite s mt et))
    with (S754_zero s).
  assert (Ha : F32.add F32.zero (F32.div (S754_zero s) F32.thousand) = F32.zero)
    by (destruct s; reflexivity).
  rewrite Ha.
  change (F32.div (F32.mul F32.zero (S754_finite false md ed)) F32.million)
    with F32.zero.
  cbn [fst snd].
  assert (Hz : forall v, F32.is_number v = true ->
                         F32.add F32.zero (F32.mul F32.zero v) = F32.zero).
  { intros v Hv. destruct v as [[|]| | |[|] mv ev]; try discriminate;
      reflexivity. }
  rewrite !Hz by assumption. repeat split.
Qed.

Lemma pair_velocities (st : t) (pl pr t u dt : Z) :
  pair_running st pl pr ->
  - Wheel.resolution_half_ (left_ st) < t < Wheel.resolution_half_ (left_ st) ->
  - Wheel.resolution_half_ (left_ st) < u < Wheel.resolution_half_ (left_ st) ->
  let R := Wheel.resolution_ (left_ st) in
  let st' := update cosf sinf st ((pl + t) mod R) ((pr + u) mod R) dt in
  left (wheel_vel_ st')
  = F32.mul (Wheel.ticks_to_velocity (left_ st) t dt)
            (F32.div (Wheel.tire_diameter_ (left_ st)) F32.two) /\
  right (wheel_vel_ st')
  = F32.mul (Wheel.ticks_to_velocity (left_ st) (- u) dt)
            (F32.div (Wheel.tire_diameter_ (left_ st)) F32.two).
Proof.
  intros (Cl & Cr & ER & ET & Il & Ir & Sl & Sr & Hpl & Hpr & Pl & Pr) Ht Hu R st'.
  assert (Hh : Wheel.resolution_half_ (right_ st) = Wheel.resolution_half_ (left_ st)).
  { destruct Cl as (_ & -> & _), Cr as (_ & -> & _). rewrite ER. reflexivity. }
  destruct (Wheel_extra.rotation_delta (left_ st) pl t Cl Sl Hpl Pl Ht)
    as (_ & El).
  destruct (Wheel_extra.rotation_delta (right_ st) pr u Cr Sr
              ltac:(rewrite ER; assumption) Pr ltac:(rewrite Hh; assumption))
    as (_ & Er).
  rewrite Il in El. rewrite Ir, ER in Er.
  unfold st', update. cbn [wheel_vel_ left right].
  rewrite !Wheel_extra.update_linear_velocity.
  rewrite !Wheel_facts.update_velocity_running by assumption.
  fold R in El, Er.
  rewrite El, Er, ET. split; [reflexivity|].
  unfold Wheel.ticks_to_velocity.
  destruct Cl as (_ & _ & ->), Cr as (_ & _ & ->). rewrite ER. reflexivity.
Qed.

(** X10 (driving straight).  With the wheel pair as the constructor makes
    it and both wheels RUNNING, the wheel velocity of the update a number,
    the track width a non-zero finite number and the heading no NaN: when
    the left raw reading advances by [t] ticks and the right one retreats
    by [t] ticks (modulo the resolution, [|t|] below the half
    resolution), the two wheel velocities coincide, the update takes the
    straight branch, reports a zero body angular velocity and commits a
    heading that compares equal to the old one. *)
Theorem opposite_readings_go_straight (st : t) (pl pr t dt : Z) (s : bool) :
  pair_running st pl pr ->
  - Wheel.resolution_half_ (left_ st) < t < Wheel.resolution_half_ (left_ st) ->
  let R := Wheel.resolution_ (left_ st) in
  let st' := update cosf sinf st ((pl + t) mod R) ((pr - t) mod R) dt in
  F32.is_number (left (wheel_vel_ st')) = true ->
  F32.finite s (wheel_track_width_ st) ->
  angle_ st <> S754_nan ->
  right (wheel_vel_ st') = left (wheel_vel_ st') /\
  straight (left (wheel_vel_ st')) (right (wheel_vel_ st')) = true /\
  angular_velocity_ st' = S754_zero s /\
  F32.eqb (angle_ st') (angle_ st) = true.
Proof.
  intros Hpair Ht R. replace (pr - t) with (pr + - t) by lia.
  intros st' Hnum Htrack Hangle.
  destruct (pair_velocities st pl pr t (- t) dt Hpair Ht ltac:(lia)) as [El Er].
  fold R in El, Er. fold st' in El, Er.
  rewrite Z.opp_involutive in Er.
  assert (Heq : right (wheel_vel_ st') = left (wheel_vel_ st')) by congruence.
  split; [exact Heq|].
  destruct (equal_velocity_turn (left (wheel_vel_ st')) (wheel_track_width_ st)
              (angle_ st) s Hnum Htrack Hangle) as (Hs & Hw & Ha).
  rewrite Heq. split; [exact Hs|]. split.
  - unfold st', update. cbn [angular_velocity_].
    unfold st', update in Heq, Hw. cbn [wheel_vel_ left right] in Heq, Hw.
    rewrite Heq. exact Hw.
  - unfold st', update. cbn [angle_].
    unfold st', update in Heq, Ha. cbn [wheel_vel_ left right] in Heq, Ha.
    rewrite Heq. exact Ha.
Qed.

(** X11 (turning in place).  With the wheel pair as the constructor makes
    it and both wheels RUNNING: when both raw readings advance by the same
    non-zero [t] ticks, the right wheel velocity is the negated left one
    and, if that is a number, the body velocity is exactly +0. *)
Theorem equal_readings_turn_in_place (st : t) (pl pr t dt : Z) :
  pair_running st pl pr ->
  - Wheel.resolution_half_ (left_ st) < t < Wheel.resolution_half_ (left_ st) ->
  t <> 0 ->
  let R := Wheel.resolution_ (left_ st) in
  let st' := update cosf sinf st ((pl + t) mod R) ((pr + t) mod R) dt in
  F32.is_number (left (wheel_vel_ st')) = true ->
  right (wheel_vel_ st') = F32.opp (left (wheel_vel_ st')) /\
  velocity_ st' = F32.zero.
Proof.
  intros Hpair Ht Hne R st' Hnum.
  destruct (pair_velocities st pl pr t t dt Hpair Ht Ht) as [El Er].
  fold R in El, Er. fold st' in El, Er.
  rewrite Wheel_facts.ticks_to_velocity_opp, F32_facts.mul_opp_l in Er by assumption.
  rewrite <- El in Er. split; [assumption|].
  assert (Hv : velocity_ st'
               = F32.div (F32.add (left (wheel_vel_ st')) (right (wheel_vel_ st')))
                         F32.two) by reflexivity.
  rewrite Hv, Er, add_opp_number by assumption. reflexivity.
Qed.

(** X12 (no drift at rest).  With both wheels constructed with a
    resolution of at least 2, RUNNING and reading the same raw values
    again, a positive period ([0 < elapsed_us < 2^32]), a positive finite
    tire radius, a non-zero finite track width, a cosine and sine that
    map numbers to numbers, a heading that is a number and [x], [y] that
    are no NaN: the update reports zero body velocities and commits a
    heading, an [x] and a [y] that compare equal to the old ones. *)
Theorem at_rest_keeps_pose (st : t) (left_raw right_raw dt : Z) (s : bool) :
  Wheel.constructed (left_ st) -> Wheel.constructed (right_ st) ->
  2 <= Wheel.resolution_ (left_ st) -> 2 <= Wheel.resolution_ (right_ st) ->
  Wheel.reset_ (left_ st) = false -> Wheel.reset_ (right_ st) = false ->
  Wheel.previous_ (left_ st) = Wheel.polarity (left_ st) left_raw ->
  Wheel.previous_ (right_ st) = Wheel.polarity (right_ st) right_raw ->
  0 < dt < 2 ^ 32 ->
  F32.finite false (F32.div (Wheel.tire_diameter_ (left_ st)) F32.two) ->
  F32.finite false (F32.div (Wheel.tire_diameter_ (right_ st)) F32.two) ->
  F32.finite s (wheel_track_width_ st) ->
  (forall a, F32.is_number a = true -> F32.is_number (cosf a) = true) ->
  (forall a, F32.is_number a = true -> F32.is_number (sinf a) = true) ->
  F32.is_number (angle_ st) = true ->
  x_ st <> S754_nan -> y_ st <> S754_nan ->
  let st' := update cosf sinf st left_raw right_raw dt in
  velocity_ st' = F32.zero /\
  angular_velocity_ st' = S754_zero s /\
  F32.eqb (angle_ st') (angle_ st) = true /\
  F32.eqb (x_ st') (x_ st) = true /\
  F32.eqb (y_ st') (y_ st) = true.
Proof.
  intros Hcl Hcr Hrl Hrr Hsl Hsr Hpl Hpr Hdt Htl Htr Htrack Hcos Hsin
         Hangle Hx Hy.
  pose proof (Wheel_extra.zero_linear_velocity (left_ st) left_raw dt
                (Wheel_extra.unchanged_reading_velocity (left_ st) left_raw dt
                   Hcl Hrl Hsl Hpl Hdt) Htl) as Ll.
  pose proof (Wheel_extra.zero_linear_velocity (right_ st) right_raw dt
                (Wheel_extra.unchanged_reading_velocity (right_ st) right_raw dt
                   Hcr Hrr Hsr Hpr Hdt) Htr) as Rl.
  unfold update.
  cbn [angle_ x_ y_ velocity_ angular_velocity_].
  rewrite Ll, Rl.
  pose proof (F32_facts.of_Z_finite dt ltac:(lia) ltac:(lia)) as Hfd.
  destruct (F32.of_Z dt) as [| | |sd md ed]; try contradiction.
  simpl in Hfd. assert (sd = false) as ->
    by (rewrite Hfd; apply Z.ltb_ge; lia).
  destruct (wheel_track_width_ st) as [| | |st' mt et]; try contradiction.
  simpl in Htrack. subst st'.
  change (straight F32.zero F32.zero) with true. cbv iota.
  change (F32.div (F32.add F32.zero F32.zero) F32.two) with F32.zero.
  change (F32.div (F32.sub F32.zero F32.zero) (S754_finite s mt et))
    with (S754_zero s).
  change (F32.div (S754_zero s) F32.thousand) with (S754_zero (xorb s false)).
  change (F32.div (F32.mul F32.zero (S754_finite false md ed)) F32.million)
    with F32.zero.
  cbn [fst snd].
  set (h := F32.add (angle_ st) (S754_zero (xorb s false))).
  assert (Hh : F32.is_number h = true).
  { unfold h. destruct (angle_ st) as [[|]| | |sa ma ea]; try discriminate;
      destruct s; reflexivity. }
  assert (Hz : forall v, F32.is_number v = true ->
                         exists z, F32.mul F32.zero v = S754_zero z).
  { intros v Hv. destruct v as [sv| | |sv mv ev]; try discriminate;
      eexists; reflexivity. }
  destruct (Hz _ (Hcos h Hh)) as [zc ->].
  destruct (Hz _ (Hsin h Hh)) as [zs ->].
  split; [reflexivity|]. split; [reflexivity|].
  split; [|split]; apply add_zero_r; try assumption.
  intros E. rewrite E in Hangle. discriminate.
Qed.

(** X13 (the wheels follow the calls).  Over any series of updates and
    resets the pose estimator drives each wheel with exactly its own raw
    readings and the shared period, resets both together, and never
    changes the track width. *)
Theorem wheels_follow_calls (st : t) (cs : list call) :
  left_ (calls cosf sinf st cs) = Wheel.calls (left_ st) (map left_call cs) /\
  right_ (calls cosf sinf st cs) = Wheel.calls (right_ st) (map right_call cs) /\
  wheel_track_width_ (calls cosf sinf st cs) = wheel_track_width_ st.
Proof.
  revert st. induction cs as [|c cs IH]; intros st.
  - repeat split.
  - cbn [calls fold_left map Wheel.calls].
    fold (calls cosf sinf (step cosf sinf st c) cs).
    fold (Wheel.calls (Wheel.step (left_ st) (left_call c)) (map left_call cs)).
    fold (Wheel.calls (Wheel.step (right_ st) (right_call c)) (map right_call cs)).
    destruct (IH (step cosf sinf st c)) as (-> & -> & ->).
    destruct c; repeat split.
Qed.

End Update.

Lemma equal_velocities_keep_heading_witness :
  let st' := update small_angle_cos small_angle_sin seeded_pair 10 1014 1000 in
  straight (left (wheel_vel_ st')) (right (wheel_vel_ st')) = true /\
  angular_velocity_ st' = S754_zero false /\
  F32.eqb (angle_ st') (angle_ seeded_pair) = true.
Proof.
  apply (equal_velocities_keep_heading small_angle_cos small_angle_sin
           seeded_pair 10 1014 1000 false); by_evaluation.
Defined.

Lemma reset_then_update_at_origin_witness :
  let st' := update small_angle_cos small_angle_sin
                    (reset (update small_angle_cos small_angle_sin
                                   seeded_pair 10 20 1000))
                    300 400 1000 in
  angle_ st' = F32.zero /\ x_ st' = F32.zero /\ y_ st' = F32.zero /\
  velocity_ st' = F32.zero /\ angular_velocity_ st' = S754_zero false /\
  wheel_vel_ st' = {| left := F32.zero; right := F32.zero |} /\
  wheel_ang_vel_ st' = {| left := F32.zero; right := F32.zero |} /\
  wheel_ang_accel_ st' = {| left := F32.zero; right := F32.zero |}.
Proof.
  apply (reset_then_update_at_origin small_angle_cos small_angle_sin
           (update small_angle_cos small_angle_sin seeded_pair 10 20 1000)
           300 400 1000 false); by_evaluation.
Defined.

Lemma opposite_readings_go_straight_witness :
  let st' := update small_angle_cos small_angle_sin seeded_pair
                    ((0 + 10) mod 1024) ((0 - 10) mod 1024) 1000 in
  right (wheel_vel_ st') = left (wheel_vel_ st') /\
  straight (left (wheel_vel_ st')) (right (wheel_vel_ st')) = true /\
  angular_velocity_ st' = S754_zero false /\
  F32.eqb (angle_ st') (angle_ seeded_pair) = true.
Proof.
  apply (opposite_readings_go_straight small_angle_cos small_angle_sin
           seeded_pair 0 0 10 1000 false); by_evaluation.
Defined.

Lemma equal_readings_turn_in_place_witness :
  let st' := update small_angle_cos small_angle_sin seeded_pair
                    ((0 + 10) mod 1024) ((0 + 10) mod 1024) 1000 in
  right (wheel_vel_ st') = F32.opp (left (wheel_vel_ st')) /\
  velocity_ st' = F32.zero.
Proof.
  apply (equal_readings_turn_in_place small_angle_cos small_angle_sin
           seeded_pair 0 0 10 1000); by_evaluation.
Defined.

Lemma at_rest_keeps_pose_witness :
  let st' := update small_angle_cos small_angle_sin seeded_pair 0 0 1000 in
  velocity_ st' = F32.zero /\
  angular_velocity_ st' = S754_zero false /\
  F32.eqb (angle_ st') (angle_ seeded_pair) = true /\
  F32.eqb (x_ st') (x_ seeded_pair) = true /\
  F32.eqb (y_ st') (y_ seeded_pair) = true.
Proof.
  apply (at_rest_keeps_pose small_angle_cos small_angle_sin
           seeded_pair 0 0 1000 false);
    try by_evaluation.
  intros a Ha. exact Ha.
Defined.

End Odometry_extra.

(** ** The encoder driver *)

Module Encoder_spec.

Import Encoder.

(** Settles a closed side condition by evaluating it. *)
Ltac by_evaluation :=
  vm_compute; repeat split; solve [reflexivity | discriminate | lia].

(** A check evaluated on every 16-bit value holds of each of them. *)
Lemma all_uint16 (P : Z -> bool) :
  F32.all_from P (Z.to_nat 65536) 0 = true ->
  forall x, 0 <= x < 65536 -> P x = true.
Proof.
  intros H x Hx. apply (F32_facts.all_from_spec P (Z.to_nat 65536) 0 x H).
  rewrite Z2Nat.id; lia.
Qed.

Lemma all_angles (P : Z -> bool) :
  F32.all_from P (Z.to_nat 1024) 0 = true ->
  forall a, 0 <= a < RESOLUTION -> P a = true.
Proof.
  intros H a Ha. apply (F32_facts.all_from_spec P (Z.to_nat 1024) 0 a H).
  unfold RESOLUTION in Ha. rewrite Z2Nat.id; lia.
Qed.

Lemma command_frame_checked :
  F32.all_from
    (fun reg =>
       forallb (fun rd =>
                  let f := command_frame reg rd in
                  (0 <=? f) && (f <? 65536) && negb (parity_bits 16 f)
                  && Bool.eqb (Z.testbit f 15) (rd || Z.testbit reg 14)
                  && (Z.land (Z.shiftr f 1) 0x3FFF =? Z.land reg 0x3FFF))
               [true; false])
    (Z.to_nat 65536) 0 = true.
Proof. vm_compute. reflexivity. Qed.

(** X14 (command frame format).  For every 16-bit register value the
    command frame is a 16-bit value with an even number of set bits; its
    bit 15 is the read flag (or bit 14 of the register, which the shift
    moves there) and its bits 1 to 14 are the low 14 bits of the
    register. *)
Theorem command_frame_format (reg : Z) (is_reading : bool) :
  0 <= reg < 65536 ->
  let frame := command_frame reg is_reading in
  0 <= frame < 65536 /\
  parity_bits 16 frame = false /\
  Z.testbit frame 15 = (is_reading || Z.testbit reg 14) /\
  Z.land (Z.shiftr frame 1) 0x3FFF = Z.land reg 0x3FFF.
Proof.
  intros Hreg frame.
  pose proof (all_uint16 _ command_frame_checked reg Hreg) as H.
  cbv beta in H. rewrite forallb_forall in H.
  assert (Hin : In is_reading [true; false]) by (destruct is_reading; simpl; auto).
  specialize (H is_reading Hin). cbv zeta in H. fold frame in H.
  rewrite !andb_true_iff in H.
  destruct H as ((((H1 & H2) & H3) & H4) & H5).
  apply Z.leb_le in H1. apply Z.ltb_lt in H2. apply negb_true_iff in H3.
  apply Bool.eqb_prop in H4. apply Z.eqb_eq in H5. auto.
Qed.

Lemma command_frame_format_witness :
  let frame := command_frame REG_MASTER_RESET false in
  0 <= frame < 65536 /\
  parity_bits 16 frame = false /\
  Z.testbit frame 15 = (false || Z.testbit REG_MASTER_RESET 14) /\
  Z.land (Z.shiftr frame 1) 0x3FFF = Z.land REG_MASTER_RESET 0x3FFF.
Proof. apply (command_frame_format REG_MASTER_RESET false). by_evaluation. Defined.

Lemma verify_frame_checked :
  F32.all_from
    (fun res =>
       Bool.eqb (verify_frame res)
                (negb (parity_bits 16 res) && negb (Z.testbit res 1))
       && (negb (verify_frame res)
           || F32.all_from (fun i => negb (verify_frame (Z.lxor res (2 ^ i))))
                           16 0))
    (Z.to_nat 65536) 0 = true.
Proof. vm_compute. reflexivity. Qed.

(** X15 (what a valid response is).  [verify_frame] accepts a 16-bit
    response exactly when its number of set bits is even and its bit 1,
    the error flag, is clear. *)
Theorem verify_frame_accepts (res : Z) :
  0 <= res < 65536 ->
  verify_frame res = negb (parity_bits 16 res) && negb (Z.testbit res 1).
Proof.
  intros Hres.
  pose proof (all_uint16 _ verify_frame_checked res Hres) as H.
  cbv beta in H. apply andb_prop in H. destruct H as [H _].
  apply Bool.eqb_prop in H. exact H.
Qed.

Lemma verify_frame_accepts_witness :
  verify_frame 0x0FF0 = negb (parity_bits 16 0x0FF0) && negb (Z.testbit 0x0FF0 1).
Proof. apply (verify_frame_accepts 0x0FF0). by_evaluation. Defined.

(** X16 (single-bit errors are detected).  Flipping any one of the 16
    bits of a response that [verify_frame] accepts gives a response that
    it rejects. *)
Theorem single_bit_error_detected (res i : Z) :
  0 <= res < 65536 -> 0 <= i < 16 -> verify_frame res = true ->
  verify_frame (Z.lxor res (2 ^ i)) = false.
Proof.
  intros Hres Hi Hok.
  pose proof (all_uint16 _ verify_frame_checked res Hres) as H.
  cbv beta in H. apply andb_prop in H. destruct H as [_ H].
  rewrite Hok in H. cbn [negb orb] in H.
  pose proof (F32_facts.all_from_spec _ 16 0 i H ltac:(simpl; lia)) as Hi'.
  cbv beta in Hi'. apply negb_true_iff in Hi'. exact Hi'.
Qed.

Lemma single_bit_error_detected_witness :
  verify_frame (Z.lxor 0x0FF0 (2 ^ 9)) = false.
Proof. apply (single_bit_error_detected 0x0FF0 9); by_evaluation. Defined.

Lemma tx_rx_checked :
  F32.all_from
    (fun f => let b := tx_bytes f in
              (0 <=? fst b) && (fst b <? 256) && (0 <=? snd b) && (snd b <? 256)
              && (rx_frame (fst b) (snd b) =? f))
    (Z.to_nat 65536) 0 = true.
Proof. vm_compute. reflexivity. Qed.

(** X17 (byte order).  The two bytes a 16-bit frame is sent as are
    8-bit values, and joining them the way a response is read gives the
    frame back: sending and receiving use the same byte order. *)
Theorem tx_rx_round_trip (frame : Z) :
  0 <= frame < 65536 ->
  let b := tx_bytes frame in
  0 <= fst b < 256 /\ 0 <= snd b < 256 /\ rx_frame (fst b) (snd b) = frame.
Proof.
  intros Hf b.
  pose proof (all_uint16 _ tx_rx_checked frame Hf) as H.
  cbv beta zeta in H. fold b in H. rewrite !andb_true_iff in H.
  destruct H as ((((H1 & H2) & H3) & H4) & H5).
  apply Z.leb_le in H1, H3. apply Z.ltb_lt in H2, H4. apply Z.eqb_eq in H5.
  auto.
Qed.

Lemma tx_rx_round_trip_witness :
  let b := tx_bytes (command_frame REG_ANGULAR_DATA true) in
  0 <= fst b < 256 /\ 0 <= snd b < 256 /\
  rx_frame (fst b) (snd b) = command_frame REG_ANGULAR_DATA true.
Proof.
  apply (tx_rx_round_trip (command_frame REG_ANGULAR_DATA true)). by_evaluation.
Defined.

Lemma update_angle_range (angle_ : Z) (ret : bool) (rx0 rx1 : Z) :
  0 <= angle_ < RESOLUTION -> 0 <= fst (update angle_ ret rx0 rx1) < RESOLUTION.
Proof.
  intros Ha. unfold update. cbn [fst].
  destruct (verify_frame (rx_frame rx0 rx1)); [|assumption].
  change 0x3FF with (Z.ones 10). rewrite Z.land_ones by lia.
  apply Z.mod_pos_bound. reflexivity.
Qed.

(** X18 (the angle is a valid sample).  Whatever bytes a series of
    transfers delivers, the stored angle stays in [[0, RESOLUTION)] when
    it started there, as it does from the constructor's 0; the last
    transfer changes it only if its frame is accepted, and then to bits
    2 to 11 of that frame. *)
Theorem angle_below_resolution
    (angle_ : Z) (transfers : list (bool * Z * Z)) (ret : bool) (rx0 rx1 : Z) :
  0 <= angle_ < RESOLUTION ->
  0 <= run angle_ transfers < RESOLUTION /\
  run angle_ (transfers ++ [(ret, rx0, rx1)])
  = (if verify_frame (rx_frame rx0 rx1)
     then Z.land (Z.shiftr (rx_frame rx0 rx1) 2) 0x3FF
     else run angle_ transfers).
Proof.
  revert angle_. induction transfers as [|[[r b0] b1] rest IH]; intros a Ha.
  - split; [exact Ha | reflexivity].
  - cbn [run app]. apply IH, update_angle_range, Ha.
Qed.

Lemma angle_below_resolution_witness :
  0 <= run 0 [(true, 0x0F, 0xF0); (true, 0xFF, 0xFF)] < RESOLUTION /\
  run 0 ([(true, 0x0F, 0xF0); (true, 0xFF, 0xFF)] ++ [(false, 0x12, 0x35)])
  = (if verify_frame (rx_frame 0x12 0x35)
     then Z.land (Z.shiftr (rx_frame 0x12 0x35) 2) 0x3FF
     else run 0 [(true, 0x0F, 0xF0); (true, 0xFF, 0xFF)]).
Proof.
  apply (angle_below_resolution 0 [(true, 0x0F, 0xF0); (true, 0xFF, 0xFF)]
                                false 0x12 0x35).
  by_evaluation.
Defined.

Lemma degree_checked :
  F32.all_from
    (fun a => F32.is_number (degree a)
              && Qeq_bool (F32.to_Q (degree a)) (inject_Z (360 * a) / inject_Z 1024))
    (Z.to_nat 1024) 0 = true.
Proof. vm_compute. reflexivity. Qed.

(** X19 (degrees are exact).  For every angle of [[0, RESOLUTION)],
    [degree] returns a number that is exactly [360 * angle / 1024], with
    no rounding error, and so lies in [[0, 360)]. *)
Theorem degree_exact (a : Z) :
  0 <= a < RESOLUTION ->
  F32.is_number (degree a) = true /\
  (F32.to_Q (degree a) == inject_Z (360 * a) / inject_Z 1024)%Q /\
  (0 <= F32.to_Q (degree a) < 360)%Q.
Proof.
  intros Ha. pose proof (all_angles _ degree_checked a Ha) as H.
  cbv beta in H. apply andb_prop in H. destruct H as [Hn Hq].
  apply Qeq_bool_iff in Hq. split; [assumption|]. split; [assumption|].
  rewrite Hq. unfold RESOLUTION in Ha.
  unfold Qle, Qlt, Qdiv, Qmult, Qinv, inject_Z. cbn [Qnum Qden].
  rewrite Pos.mul_1_l. lia.
Qed.

Lemma degree_exact_witness :
  F32.is_number (degree 256) = true /\
  (F32.to_Q (degree 256) == inject_Z (360 * 256) / inject_Z 1024)%Q /\
  (0 <= F32.to_Q (degree 256) < 360)%Q.
Proof. apply (degree_exact 256). by_evaluation. Defined.

Lemma radian_checked :
  F32.all_from
    (fun a => F32.is_number (radian a)
              && Qle_bool 0 (F32.to_Q (radian a))
              && negb (Qle_bool (F32.to_Q (F32.mul F32.two F32.pi))
                                (F32.to_Q (radian a)))
              && ((a =? 1023)
                  || negb (Qle_bool (F32.to_Q (radian (a + 1)))
                                    (F32.to_Q (radian a)))))
    (Z.to_nat 1024) 0 = true.
Proof. vm_compute. reflexivity. Qed.

Lemma radian_facts (a : Z) :
  0 <= a < RESOLUTION ->
  F32.is_number (radian a) = true /\
  (0 <= F32.to_Q (radian a) < F32.to_Q (F32.mul F32.two F32.pi))%Q /\
  (a < 1023 -> (F32.to_Q (radian a) < F32.to_Q (radian (a + 1)))%Q).
Proof.
  intros Ha. pose proof (all_angles _ radian_checked a Ha) as H.
  cbv beta in H. rewrite !andb_true_iff in H.
  destruct H as (((Hn & H0) & H2) & Hs).
  apply Qle_bool_iff in H0. apply negb_true_iff in H2.
  split; [assumption|]. split; [split; [assumption|]|].
  - apply Qnot_le_lt. intros Hle. apply Qle_bool_iff in Hle. congruence.
  - intros Hlt. apply orb_true_iff in Hs. destruct Hs as [Hs|Hs].
    + apply Z.eqb_eq in Hs. lia.
    + apply negb_true_iff in Hs. apply Qnot_le_lt. intros Hle.
      apply Qle_bool_iff in Hle. congruence.
Qed.

(** X20 (radians grow with the angle).  For angles [a < b] of
    [[0, RESOLUTION)], [radian] returns numbers with
    [0 <= radian a < radian b < 2 pi] (the binary32 [2.0f * pi]): rounding
    never merges or reorders two angles.  Its factor is the per-tick angle
    the wheel estimator uses for a resolution of 1024. *)
Theorem radian_increasing (a b : Z) :
  0 <= a -> a < b -> b < RESOLUTION ->
  F32.is_number (radian a) = true /\
  F32.is_number (radian b) = true /\
  (0 <= F32.to_Q (radian a))%Q /\
  (F32.to_Q (radian a) < F32.to_Q (radian b))%Q /\
  (F32.to_Q (radian b) < F32.to_Q (F32.mul F32.two F32.pi))%Q /\
  radian a = F32.mul (F32.of_Z a) (Wheel.angle_per_tick RESOLUTION).
Proof.
  intros Ha Hab Hb. unfold RESOLUTION in Hb.
  destruct (radian_facts a) as (Na & [Za _] & _); [unfold RESOLUTION; lia|].
  destruct (radian_facts b) as (Nb & [_ Ub] & _); [unfold RESOLUTION; lia|].
  repeat split; try assumption.
  assert (Hmono : forall n : nat, a + 1 + Z.of_nat n < 1024 ->
            (F32.to_Q (radian a) < F32.to_Q (radian (a + 1 + Z.of_nat n)))%Q).
  { induction n as [|n IH]; intros Hn.
    - replace (a + 1 + Z.of_nat 0) with (a + 1) by lia.
      apply (radian_facts a); [unfold RESOLUTION|]; lia.
    - apply Qlt_trans with (F32.to_Q (radian (a + 1 + Z.of_nat n))).
      + apply IH. lia.
      + replace (a + 1 + Z.of_nat (S n)) with (a + 1 + Z.of_nat n + 1) by lia.
        apply (radian_facts (a + 1 + Z.of_nat n)); [unfold RESOLUTION|]; lia. }
  replace b with (a + 1 + Z.of_nat (Z.to_nat (b - a - 1))) by lia.
  apply Hmono. lia.
Qed.

Lemma radian_increasing_witness :
  F32.is_number (radian 511) = true /\
  F32.is_number (radian 512) = true /\
  (0 <= F32.to_Q (radian 511))%Q /\
  (F32.to_Q (radian 511) < F32.to_Q (radian 512))%Q /\
  (F32.to_Q (radian 512) < F32.to_Q (F32.mul F32.two F32.pi))%Q /\
  radian 511 = F32.mul (F32.of_Z 511) (Wheel.angle_per_tick RESOLUTION).
Proof. apply (radian_increasing 511 512); by_evaluation. Defined.

End Encoder_spec.

(** ** The motor driver *)

Module Motor_spec.

Import Motor.

Lemma ltb_zero_negative (x : F32.float) :
  SFltb x F32.zero = true <->
  F32.signed true x /\ F32.eqb x F32.zero = false.
Proof.
  destruct x as [[|]|[|]| |[|] m e]; cbn; intuition congruence.
Qed.

Lemma mul_finite_signed (sx sy : bool) (x y : F32.float) :
  F32.finite sx x -> F32.signed sy y -> F32.signed (xorb sx sy) (F32.mul x y).
Proof.
  destruct x as [s|s| |s mx ex], y as [t|t| |t my ey]; simpl;
    try contradiction; intros -> ->; try reflexivity.
  apply F32_facts.binary_round_aux_signed. lia.
Qed.

Lemma float_to_uint32_negative (x : F32.float) :
  F32.signed true x ->
  float_to_uint32 x = None \/ float_to_uint32 x = Some 0.
Proof.
  destruct x as [s|s| |s m e]; simpl; try contradiction; intros ->; auto.
  destruct (Z.shiftl (Z.pos m) e =? 0); auto.
Qed.

(** X21 (no tick count in reverse).  [speed] selects REVERSE exactly for
    a duty that is negative (sign bit set, not a zero, not a NaN).  The
    tick count it then hands on, [(uint32_t)(800 * duty)], is 0 when
    [800 * duty] truncates to zero and otherwise the conversion of a
    negative value, which C++ leaves undefined: in reverse the code never
    passes a defined positive tick count.  A NaN selects FORWARD with an
    undefined conversion, both zeros FORWARD with 0 ticks; a duty of one
    half gives 400 ticks forward, of minus one half an undefined
    conversion in reverse. *)
Theorem reverse_duty_not_positive (duty : F32.float) :
  BDC_MCPWM_DUTY_TICK_MAX = 800 /\
  (fst (speed duty) = REVERSE <->
   F32.signed true duty /\ F32.eqb duty F32.zero = false) /\
  (fst (speed duty) = REVERSE ->
   snd (speed duty) = None \/ snd (speed duty) = Some 0) /\
  (duty = S754_nan -> speed duty = (FORWARD, None)) /\
  (forall s, speed (S754_zero s) = (FORWARD, Some 0)) /\
  speed (S754_finite false 8388608 (-24)) = (FORWARD, Some 400) /\
  speed (S754_finite true 8388608 (-24)) = (REVERSE, None).
Proof.
  split; [reflexivity|].
  assert (Hdir : fst (speed duty) = REVERSE <-> SFltb duty F32.zero = true).
  { unfold speed. cbn [fst]. destruct (SFltb duty F32.zero);
      split; congruence. }
  split; [rewrite Hdir; apply ltb_zero_negative|]. split.
  - intros Hrev. apply Hdir, ltb_zero_negative in Hrev. destruct Hrev as [Hs _].
    unfold speed. cbn [snd]. apply float_to_uint32_negative.
    apply (mul_finite_signed false true); [reflexivity | exact Hs].
  - split; [intros ->; reflexivity|].
    split; [intros [|]; reflexivity|].
    split; vm_compute; reflexivity.
Qed.

End Motor_spec.
